(** * wyoming-porcupine: the session event handler and the detector cache

    A shallow embedding of [wyoming_porcupine/handler.py]: the process-wide
    [State] with its detector cache, and [PorcupineEventHandler] with
    [handle_event], [disconnect] and [_load_keyword].

    The native Porcupine library, the wyoming audio converter and the event
    transport are outside the repository; they appear here as the fields of
    an [Env] record (what [pvporcupine.create] and [Porcupine.process]
    answer, what [AudioChunkConverter.convert] returns) and as logs kept in
    the [World] (the frames handed to [process], the events written). *)

From Stdlib Require Import ZArith List Ascii String PrimFloat Lia.
From Stdlib.Strings Require Import Byte.
From stdpp Require Import gmap strings list fin_maps.

Local Open Scope string_scope.
Local Open Scope list_scope.

(** ** Data model *)

(** [bytes]: an immutable sequence of bytes. *)
Abbreviation bytes := (list Byte.byte).

Module Keyword.
(** [@dataclass class Keyword]; paths are kept as their string form. *)
Record t : Type := mk {
  language : string;
  name : string;
  model_path : string;
}.
End Keyword.

Module Porcupine.
(** A [pvporcupine.Porcupine] object. [handle] is the identity of the
    native object (Python compares such objects by identity);
    [frame_length] is the number of samples it consumes per [process]
    call. *)
Record t : Type := mk {
  handle : nat;
  frame_length : nat;
}.

(** [p is q] *)
Definition is_ (p q : t) : bool := Nat.eqb (handle p) (handle q).
End Porcupine.

Module Detector.
(** [@dataclass class Detector] *)
Record t : Type := mk {
  porcupine : Porcupine.t;
  sensitivity : float;
}.

(** The dataclass-generated [__eq__]: the field tuples are compared, the
    Porcupine objects by identity and the sensitivities as floats. *)
Definition eq_ (d e : t) : bool :=
  Porcupine.is_ (porcupine d) (porcupine e)
  && PrimFloat.eqb (sensitivity d) (sensitivity e).

(** Object identity of the [Detector] itself: one [Detector] is built per
    Porcupine object (last line of [get_porcupine]) and never copied. *)
Definition is_ (d e : t) : bool := Porcupine.is_ (porcupine d) (porcupine e).

Definition handle (d : t) : nat := Porcupine.handle (porcupine d).
End Detector.

(** [class State]: [pv_lib_paths], [keywords] and the [defaultdict(list)]
    [detector_cache]. A key can be present with an empty list, which differs
    from an absent key for [dict.get]. *)
Record State : Type := mkState {
  pv_lib_paths : gmap string string;
  keywords : gmap string Keyword.t;
  detector_cache : gmap string (list Detector.t);
}.

(** The wyoming [AudioChunk] *)
Module AudioChunk.
Record t : Type := mk {
  rate : Z;
  width : Z;
  channels : Z;
  audio : bytes;
  timestamp : option Z;
}.
End AudioChunk.

(** Inbound events, as told apart by [X.is_type(event.type)] and decoded by
    [X.from_event(event)]. [Detect.names] is [Optional[List[str]]]. *)
Inductive Event : Type :=
| Describe
| Detect (names : option (list string))
| AudioStart (rate width channels : Z)
| AudioChunk (chunk : AudioChunk.t)
| AudioStop
| Other (type : string).

(** Outbound events passed to [write_event]. *)
Inductive OutEvent : Type :=
| Info (models : list string)
| Detection (name : string) (timestamp : option Z)
| NotDetected.

Inductive Error : Type :=
| ValueError (msg : string)     (* raise ValueError(f"No keyword ...") *)
| KeyError (key : string)       (* self.pv_lib_paths[keyword.language] *)
| PorcupineError                (* pvporcupine.create(...) raised *)
| StructError                   (* struct.unpack_from(...) raised *)
| AssertionError.               (* assert self.detector is not None *)

(** What a call does: return, raise, or still run when the fuel is spent. *)
Inductive Outcome (A : Type) : Type :=
| Return (a : A)
| Raise (e : Error)
| OutOfFuel.
Arguments Return {A} a.
Arguments Raise {A} e.
Arguments OutOfFuel {A}.

(** [cli_args], as far as the handler reads it. *)
Record CliArgs : Type := mkCliArgs {
  sensitivity : float;
  access_key : string;
}.

(** The fields of [PorcupineEventHandler] set in [__init__]. *)
Record PorcupineEventHandler : Type := mkHandler {
  cli_args : CliArgs;
  wyoming_info_event : OutEvent;
  client_id : nat;
  audio_buffer : bytes;
  detected : bool;
  detector : option Detector.t;
  keyword_name : string;
  chunk_format : string;
  bytes_per_chunk : nat;
}.

(** [PorcupineEventHandler.__init__] *)
Definition new_handler (info : OutEvent) (args : CliArgs) (id : nat)
  : PorcupineEventHandler :=
  {| cli_args := args; wyoming_info_event := info; client_id := id;
     audio_buffer := []; detected := false; detector := None;
     keyword_name := ""; chunk_format := ""; bytes_per_chunk := 0 |}.

(** Everything outside one handler object: the shared [State], the next
    unused native handle, the [process] calls made so far (handle and frame,
    oldest first) and the events written so far (client and event, oldest
    first). *)
Record World : Type := mkWorld {
  state : State;
  next_handle : nat;
  calls : list (nat * list Z);
  written : list (nat * OutEvent);
}.

(** The collaborators outside the repository. *)
Record Env : Type := mkEnv {
  (** [pvporcupine.create(model_path, keyword_paths=[p], sensitivities=[s],
      access_key)]: [None] when it raises, else the frame length of the new
      object. *)
  pv_create : string -> string -> float -> string -> option nat;
  (** [porcupine.process(frame)]: the keyword index, given the handle, the
      frames this handle was given before, and the frame. *)
  pv_process : nat -> list (list Z) -> list Z -> Z;
  (** [AudioChunkConverter(rate=16000, width=2, channels=1).convert] *)
  convert : AudioChunk.t -> AudioChunk.t;
  (** [sys.byteorder == "little"], for the native-order format ["h"]. *)
  little_endian : bool;
}.

(** ** Python primitives *)

(** [list.remove(x)]: drops the first item [y] with [y is x or y == x]. *)
Fixpoint list_remove (x : Detector.t) (l : list Detector.t) : list Detector.t :=
  match l with
  | [] => []
  | y :: l' =>
      if Detector.is_ y x || Detector.eq_ y x then l' else y :: list_remove x l'
  end.

(** ["h" * n] *)
Fixpoint str_repeat_h (n : nat) : string :=
  match n with
  | O => EmptyString
  | S n' => String "h"%char (str_repeat_h n')
  end.

(** One signed 16-bit sample from two bytes in the given byte order. *)
Definition int16 (le : bool) (b0 b1 : Byte.byte) : Z :=
  let lo := Z.of_N (Byte.to_N (if le then b0 else b1)) in
  let hi := Z.of_N (Byte.to_N (if le then b1 else b0)) in
  let u := (lo + 256 * hi)%Z in
  if (u <? 32768)%Z then u else (u - 65536)%Z.

(** [struct.unpack_from(fmt, buf)] for the formats the handler builds (a run
    of ["h"]); [None] for [struct.error]: another format character, or a
    buffer shorter than the format needs. *)
Fixpoint unpack_from (le : bool) (fmt : string) (buf : bytes) : option (list Z) :=
  match fmt with
  | EmptyString => Some []
  | String c fmt' =>
      if Ascii.eqb c "h"%char then
        match buf with
        | b0 :: b1 :: buf' =>
            match unpack_from le fmt' buf' with
            | Some r => Some (int16 le b0 b1 :: r)
            | None => None
            end
        | _ => None
        end
      else None
  end.

(** [DEFAULT_KEYWORD] *)
Definition DEFAULT_KEYWORD : string := "porcupine".

(** ** Field updates *)

Definition set_detector_cache (c : gmap string (list Detector.t)) (w : World) : World :=
  {| state := {| pv_lib_paths := pv_lib_paths (state w);
                 keywords := keywords (state w);
                 detector_cache := c |};
     next_handle := next_handle w; calls := calls w; written := written w |}.

Definition set_next_handle (n : nat) (w : World) : World :=
  {| state := state w; next_handle := n; calls := calls w; written := written w |}.

Definition log_call (h : nat) (frame : list Z) (w : World) : World :=
  {| state := state w; next_handle := next_handle w;
     calls := calls w ++ [(h, frame)]; written := written w |}.

Definition log_written (id : nat) (ev : OutEvent) (w : World) : World :=
  {| state := state w; next_handle := next_handle w;
     calls := calls w; written := written w ++ [(id, ev)] |}.

Definition set_audio_buffer (b : bytes) (self : PorcupineEventHandler)
  : PorcupineEventHandler :=
  {| cli_args := cli_args self; wyoming_info_event := wyoming_info_event self;
     client_id := client_id self; audio_buffer := b; detected := detected self;
     detector := detector self; keyword_name := keyword_name self;
     chunk_format := chunk_format self; bytes_per_chunk := bytes_per_chunk self |}.

Definition set_detected (b : bool) (self : PorcupineEventHandler)
  : PorcupineEventHandler :=
  {| cli_args := cli_args self; wyoming_info_event := wyoming_info_event self;
     client_id := client_id self; audio_buffer := audio_buffer self; detected := b;
     detector := detector self; keyword_name := keyword_name self;
     chunk_format := chunk_format self; bytes_per_chunk := bytes_per_chunk self |}.

Definition set_detector (d : option Detector.t) (self : PorcupineEventHandler)
  : PorcupineEventHandler :=
  {| cli_args := cli_args self; wyoming_info_event := wyoming_info_event self;
     client_id := client_id self; audio_buffer := audio_buffer self;
     detected := detected self; detector := d; keyword_name := keyword_name self;
     chunk_format := chunk_format self; bytes_per_chunk := bytes_per_chunk self |}.

(** The four assignments of [_load_keyword]. *)
Definition bind_detector (d : Detector.t) (kw : string) (self : PorcupineEventHandler)
  : PorcupineEventHandler :=
  let n := Porcupine.frame_length (Detector.porcupine d) in
  {| cli_args := cli_args self; wyoming_info_event := wyoming_info_event self;
     client_id := client_id self; audio_buffer := audio_buffer self;
     detected := detected self; detector := Some d; keyword_name := kw;
     chunk_format := str_repeat_h n; bytes_per_chunk := n * 2 |}.

(** ** The handler's computations: a state and error monad over the handler
    object and the world *)

Definition M (A : Type) : Type :=
  PorcupineEventHandler -> World -> Outcome A * PorcupineEventHandler * World.

Definition ret {A} (a : A) : M A := fun self w => (Return a, self, w).

Definition bind {A B} (m : M A) (k : A -> M B) : M B :=
  fun self w =>
    match m self w with
    | (Return a, self', w') => k a self' w'
    | (Raise e, self', w') => (Raise e, self', w')
    | (OutOfFuel, self', w') => (OutOfFuel, self', w')
    end.

Notation "'let*' x ':=' m 'in' k" := (bind m (fun x => k))
  (at level 10, x name, m at level 100, k at level 200).

(** [await self.write_event(ev)] *)
Definition write_event (ev : OutEvent) : M unit :=
  fun self w => (Return tt, self, log_written (client_id self) ev w).

Section WithEnv.
Variable env : Env.

(** The frames a handle has been given so far. *)
Definition history (h : nat) (w : World) : list (list Z) :=
  map snd (List.filter (fun c => Nat.eqb (fst c) h) (calls w)).

(** [detector.porcupine.process(frame)] *)
Definition process (d : Detector.t) (frame : list Z) : M Z :=
  fun self w =>
    let h := Detector.handle d in
    (Return (pv_process env h (history h w) frame), self, log_call h frame w).

(** The block of [get_porcupine] under [detector_lock]: the cached
    detector taken, if any, and the cache without it. *)
Definition cache_take (keyword_name : string) (sens : float)
    (cache : gmap string (list Detector.t))
  : option (Detector.t * gmap string (list Detector.t)) :=
  match cache !! keyword_name with
  | Some ((_ :: _) as detectors) =>
      match find (fun d => PrimFloat.eqb (Detector.sensitivity d) sens) detectors with
      | Some detector =>
          Some (detector, <[keyword_name := list_remove detector detectors]> cache)
      | None => None
      end
  | _ => None
  end.

(** [State.get_porcupine] *)
Definition get_porcupine (keyword_name : string) (sens : float) (key : string)
    (w : World) : Outcome Detector.t * World :=
  match keywords (state w) !! keyword_name with
  | None => (Raise (ValueError ("No keyword " ++ keyword_name)%string), w)
  | Some keyword =>
      match cache_take keyword_name sens (detector_cache (state w)) with
      | Some (detector, cache') => (Return detector, set_detector_cache cache' w)
      | None =>
          match pv_lib_paths (state w) !! Keyword.language keyword with
          | None => (Raise (KeyError (Keyword.language keyword)), w)
          | Some lib =>
              match pv_create env lib (Keyword.model_path keyword) sens key with
              | None => (Raise PorcupineError, w)
              | Some n =>
                  (Return (Detector.mk (Porcupine.mk (next_handle w) n) sens),
                   set_next_handle (S (next_handle w)) w)
              end
          end
      end
  end.

(** [PorcupineEventHandler._load_keyword] *)
Definition _load_keyword (kw : string) : M unit :=
  fun self w =>
    match get_porcupine kw (sensitivity (cli_args self)) (access_key (cli_args self)) w with
    | (Return d, w') => (Return tt, bind_detector d kw self, w')
    | (Raise e, w') => (Raise e, self, w')
    | (OutOfFuel, w') => (OutOfFuel, self, w')
    end.

(** [self.audio_buffer = self.audio_buffer[self.bytes_per_chunk :]] *)
Definition consume_frame : M unit :=
  fun self w =>
    (Return tt,
     set_audio_buffer (drop (bytes_per_chunk self) (audio_buffer self)) self, w).

(** The [while len(self.audio_buffer) >= self.bytes_per_chunk] loop of
    [handle_event]; one unit of fuel per test of the condition. *)
Fixpoint while_frames (fuel : nat) (d : Detector.t) (ts : option Z) : M unit :=
  fun self w =>
    match fuel with
    | O => (OutOfFuel, self, w)
    | S fuel' =>
        if Nat.leb (bytes_per_chunk self) (length (audio_buffer self)) then
          match unpack_from (little_endian env) (chunk_format self)
                  (take (bytes_per_chunk self) (audio_buffer self)) with
          | None => (Raise StructError, self, w)
          | Some unpacked_chunk =>
              (let* keyword_index := process d unpacked_chunk in
               let* _ := if (0 <=? keyword_index)%Z
                         then write_event (Detection (keyword_name self) ts)
                         else ret tt in
               let* _ := consume_frame in
               while_frames fuel' d ts) self w
          end
        else (Return tt, self, w)
    end.

(** [PorcupineEventHandler.handle_event] *)
Definition handle_event (fuel : nat) (event : Event) : M bool :=
  match event with
  | Describe =>
      let* _ := fun self w => write_event (wyoming_info_event self) self w in
      ret true
  | Detect names =>
      match names with
      | Some (name0 :: _) => let* _ := _load_keyword name0 in ret true
      | _ => ret true
      end
  | AudioStart _ _ _ =>
      fun self w => (Return true, set_detected false self, w)
  | AudioChunk chunk =>
      let* _ := fun self w =>
                  match detector self with
                  | None => _load_keyword DEFAULT_KEYWORD self w
                  | Some _ => (Return tt, self, w)
                  end in
      fun self w =>
        match detector self with
        | None => (Raise AssertionError, self, w)
        | Some d =>
            let chunk := convert env chunk in
            let self := set_audio_buffer
                          (audio_buffer self ++ AudioChunk.audio chunk) self in
            (let* _ := while_frames fuel d (AudioChunk.timestamp chunk) in
             ret true) self w
        end
  | AudioStop =>
      let* _ := fun self w =>
                  if detected self then (Return tt, self, w)
                  else write_event NotDetected self w in
      ret false
  | Other _ => ret true
  end.

(** [PorcupineEventHandler.disconnect]; indexing the [defaultdict] makes
    an absent key an empty list. *)
Definition disconnect (self : PorcupineEventHandler) (w : World)
  : PorcupineEventHandler * World :=
  match detector self with
  | Some d =>
      let cache := detector_cache (state w) in
      let idle := default [] (cache !! keyword_name self) in
      (set_detector None self,
       set_detector_cache (<[keyword_name self := idle ++ [d]]> cache) w)
  | None => (self, w)
  end.

(** The caller's loop (wyoming's [AsyncEventHandler.run]): events are
    handled in arrival order until [handle_event] returns [False]. The
    result tells whether the session still continues. *)
Fixpoint handle_events (fuel : nat) (events : list Event) : M bool :=
  match events with
  | [] => ret true
  | event :: events' =>
      let* continue := handle_event fuel event in
      if continue then handle_events fuel events' else ret false
  end.

End WithEnv.

(** ** Framing, stated directly

    What the loop of [handle_event] is meant to compute from a buffer [b] and
    a frame size [n]: the [length b / n] full frames, left to right, and the
    bytes that stay behind. *)

Fixpoint frames_n (k n : nat) (b : bytes) : list bytes :=
  match k with
  | O => []
  | S k' => take n b :: frames_n k' n (drop n b)
  end.

Definition frames (n : nat) (b : bytes) : list bytes :=
  frames_n (length b / n) n b.

Definition rest (n : nat) (b : bytes) : bytes :=
  drop (length b / n * n) b.

(** The samples of a frame: consecutive byte pairs as signed 16-bit values. *)
Fixpoint samples (le : bool) (b : bytes) : list Z :=
  match b with
  | b0 :: b1 :: b' => int16 le b0 b1 :: samples le b'
  | _ => []
  end.

(** The world after a detector was given the frames [fs] one after the
    other, each match writing a [Detection]. *)
Fixpoint feed (env : Env) (d : Detector.t) (kw : string) (ts : option Z)
    (id : nat) (fs : list (list Z)) (w : World) : World :=
  match fs with
  | [] => w
  | f :: fs' =>
      let h := Detector.handle d in
      let k := pv_process env h (history h w) f in
      let w1 := log_call h f w in
      feed env d kw ts id fs'
        (if (0 <=? k)%Z then log_written id (Detection kw ts) w1 else w1)
  end.

(** The canonical bytes a list of chunks carries, in order. *)
Definition converted_bytes (env : Env) (cs : list AudioChunk.t) : bytes :=
  concat (map (fun c => AudioChunk.audio (convert env c)) cs).

(** The idle detectors of a keyword: [detector_cache[kw]]. *)
Definition idle (w : World) (kw : string) : list Detector.t :=
  default [] (detector_cache (state w) !! kw).

(** Less than one frame is buffered (or nothing at all, which is the only
    possibility while the frame size is still 0). *)
Definition frame_bound (self : PorcupineEventHandler) : Prop :=
  audio_buffer self = [] \/ length (audio_buffer self) < bytes_per_chunk self.

(** A handler as [_load_keyword] leaves it: bound to [d], with the format
    and frame size of [d]. *)
Definition armed (d : Detector.t) (self : PorcupineEventHandler) : Prop :=
  detector self = Some d
  /\ chunk_format self = str_repeat_h (Porcupine.frame_length (Detector.porcupine d))
  /\ bytes_per_chunk self = Porcupine.frame_length (Detector.porcupine d) * 2.

(** ** Several connections on one [State]

    The server keeps one handler object per open connection; all of them
    share the [State]. An operation is one handler binding a keyword
    ([_load_keyword], which calls [get_porcupine]) or one handler
    disconnecting ([disconnect]); the operations of different handlers
    interleave in any order. *)

Record System : Type := mkSystem {
  world : World;
  handlers : gmap nat PorcupineEventHandler;
}.

Inductive Op : Type :=
| Acquire (i : nat) (kw : string)
| Release (i : nat).

Definition step (env : Env) (op : Op) (sys : System) : System :=
  match op with
  | Acquire i kw =>
      match handlers sys !! i with
      | Some self =>
          let '(_, self', w') := _load_keyword env kw self (world sys) in
          {| world := w'; handlers := <[i := self']> (handlers sys) |}
      | None => sys
      end
  | Release i =>
      match handlers sys !! i with
      | Some self =>
          let '(self', w') := disconnect self (world sys) in
          {| world := w'; handlers := <[i := self']> (handlers sys) |}
      | None => sys
      end
  end.

Fixpoint run (env : Env) (ops : list Op) (sys : System) : System :=
  match ops with
  | [] => sys
  | op :: ops' => run env ops' (step env op sys)
  end.

(** The detector an operation hands to its handler, if it hands one. *)
Definition acquired (env : Env) (op : Op) (sys : System) : option Detector.t :=
  match op with
  | Acquire i kw =>
      match handlers sys !! i with
      | Some self =>
          match get_porcupine env kw (sensitivity (cli_args self))
                  (access_key (cli_args self)) (world sys) with
          | (Return d, _) => Some d
          | _ => None
          end
      | None => None
      end
  | Release _ => None
  end.



(** Handler [i] holds the detector [d]. *)
Definition holds (sys : System) (i : nat) (d : Detector.t) : Prop :=
  exists self, handlers sys !! i = Some self /\ detector self = Some d.

(** Every detector has one owner: no handle occurs twice in an idle list,
    in two idle lists, in two handlers, or in a handler and an idle list;
    and every handle in use is below the next one to be given out. *)
Record exclusive (sys : System) : Prop := mkExclusive {
  idle_nodup : forall kw, NoDup (map Detector.handle (idle (world sys) kw));
  idle_disjoint : forall k1 k2 d1 d2,
    k1 <> k2 -> d1 ∈ idle (world sys) k1 -> d2 ∈ idle (world sys) k2 ->
    Detector.handle d1 <> Detector.handle d2;
  held_disjoint : forall i j di dj,
    i <> j -> holds sys i di -> holds sys j dj ->
    Detector.handle di <> Detector.handle dj;
  held_not_idle : forall i di k d,
    holds sys i di -> d ∈ idle (world sys) k ->
    Detector.handle di <> Detector.handle d;
  idle_below : forall k d,
    d ∈ idle (world sys) k -> Detector.handle d < next_handle (world sys);
  held_below : forall i d,
    holds sys i d -> Detector.handle d < next_handle (world sys);
}.



(** ** A small concrete instance, used to run the definitions

    Two keywords; the detector of ["porcupine"] takes frames of two samples,
    that of ["bumblebee"] frames of one sample. A frame matches when its
    first sample is 1. Chunks arrive already in the canonical format. *)
Module Demo.

Definition create (lib path : string) (s : float) (key : string) : option nat :=
  if String.eqb key "" then None
  else if String.eqb path "bumblebee.ppn" then Some 1 else Some 2.

Definition process_frame (h : nat) (hist : list (list Z)) (frame : list Z) : Z :=
  match frame with
  | 1%Z :: _ => 0%Z
  | _ => (-1)%Z
  end.

Definition env : Env :=
  {| pv_create := create; pv_process := process_frame;
     convert := fun c => c; little_endian := true |}.

Definition st0 : State :=
  {| pv_lib_paths := {[ "en" := "porcupine_params_en.pv" ]};
     keywords := {[ "porcupine" := Keyword.mk "en" "porcupine" "porcupine.ppn";
                    "bumblebee" := Keyword.mk "en" "bumblebee" "bumblebee.ppn" ]};
     detector_cache := ∅ |}.

Definition w0 : World :=
  {| state := st0; next_handle := 0; calls := []; written := [] |}.

Definition args : CliArgs := {| sensitivity := 0.5%float; access_key := "key" |}.

Definition h0 : PorcupineEventHandler := new_handler (Info ["porcupine"; "bumblebee"]) args 7.

Definition pcm (b : bytes) : AudioChunk.t := AudioChunk.mk 16000 2 1 b (Some 0%Z).

Definition chunk (b : bytes) : Event := AudioChunk (pcm b).

(** The detectors the first two [pv_create] calls give for ["porcupine"]
    and then ["bumblebee"]. *)
Definition d0 : Detector.t := Detector.mk (Porcupine.mk 0 2) 0.5%float.
Definition d1 : Detector.t := Detector.mk (Porcupine.mk 1 1) 0.5%float.

(** A handler bound to [d0], and the world it lives in. *)
Definition h_bound : PorcupineEventHandler := bind_detector d0 "porcupine" h0.
Definition w_bound : World := set_next_handle 1 w0.

(** Two fresh connections on the initial world. *)
Definition sys0 : System :=
  {| world := w0;
     handlers := {[ 0 := new_handler (Info []) args 7;
                    1 := new_handler (Info []) args 8 ]} |}.

(** A world with two idle ["porcupine"] detectors of different
    sensitivity. *)
Definition w_cached : World :=
  set_next_handle 2
    (set_detector_cache
       {[ "porcupine" := [Detector.mk (Porcupine.mk 0 2) 0.25%float;
                          Detector.mk (Porcupine.mk 1 2) 0.5%float] ]} w0).

End Demo.


(** ** The detections of a run of frames *)

(** The keyword indices [process] answers for the frames [fs], given one
    after the other to the handle [h] that was given [hist] before. *)
Fixpoint verdicts (env : Env) (h : nat) (hist : list (list Z)) (fs : list (list Z))
  : list Z :=
  match fs with
  | [] => []
  | f :: fs' => pv_process env h hist f :: verdicts env h (hist ++ [f]) fs'
  end.

(** A value of the format ["h"]: a signed 16-bit integer. *)
Definition is_int16 (z : Z) : Prop := (-32768 <= z < 32768)%Z.

(** ** Start-up: [main] in [__main__.py]

    The file system is outside the program: a directory listing is the list
    of the paths [glob] yields, in the order it yields them, each with the
    attributes [main] reads. *)

Module Path.
(** A [pathlib.Path] as [main] uses it: [path.stem],
    [path.parent.parent.name] and [str(path)]. *)
Record t : Type := mk {
  stem : string;
  parent_parent_name : string;
  str : string;
}.
End Path.

(** [s.split(sep)] for a one-character separator. *)
Fixpoint str_split (sep : ascii) (s : string) : list string :=
  match s with
  | EmptyString => [EmptyString]
  | String c s' =>
      if Ascii.eqb c sep then EmptyString :: str_split sep s'
      else match str_split sep s' with
           | p :: ps => String c p :: ps
           | [] => [String c EmptyString]
           end
  end.

(** [s.split(sep, maxsplit=m)] *)
Fixpoint str_split_max (sep : ascii) (s : string) (m : nat) : list string :=
  match s with
  | EmptyString => [EmptyString]
  | String c s' =>
      match m with
      | O => [s]
      | S m' =>
          if Ascii.eqb c sep then EmptyString :: str_split_max sep s' m'
          else match str_split_max sep s' m with
               | p :: ps => String c p :: ps
               | [] => [String c EmptyString]
               end
      end
  end.

(** [s.rsplit(sep, maxsplit=1)] when [sep] occurs in [s]: the parts before
    and after its last occurrence. *)
Fixpoint str_rsplit1 (sep : ascii) (s : string) : option (string * string) :=
  match s with
  | EmptyString => None
  | String c s' =>
      match str_rsplit1 sep s' with
      | Some (h, t) => Some (String c h, t)
      | None => if Ascii.eqb c sep then Some (EmptyString, s') else None
      end
  end.

(** [s.split("_")[-1]] *)
Definition last_piece (s : string) : string :=
  List.last (str_split "_"%char s) EmptyString.

(** [s.rsplit("_", maxsplit=1)[0]] *)
Definition rsplit_head (s : string) : string :=
  match str_rsplit1 "_"%char s with
  | Some (h, _) => h
  | None => s
  end.

(** [sub in s] *)
Fixpoint str_contains (sub s : string) : bool :=
  String.prefix sub s
  || match s with
     | EmptyString => false
     | String _ s' => str_contains sub s'
     end.

(** The number of occurrences of a character. *)
Fixpoint str_count (sep : ascii) (s : string) : nat :=
  match s with
  | EmptyString => 0
  | String c s' => (if Ascii.eqb c sep then 1 else 0) + str_count sep s'
  end.

(** A [dict] with string keys, in insertion order. [d[k] = v] replaces the
    value of a key already there, in place, and appends a new key. *)
Fixpoint dict_set {V : Type} (k : string) (v : V) (d : list (string * V))
  : list (string * V) :=
  match d with
  | [] => [(k, v)]
  | (k', v') :: d' =>
      if String.eqb k' k then (k', v) :: d' else (k', v') :: dict_set k v d'
  end.

(** [d.get(k)] *)
Fixpoint dict_get {V : Type} (k : string) (d : list (string * V)) : option V :=
  match d with
  | [] => None
  | (k', v') :: d' => if String.eqb k' k then Some v' else dict_get k d'
  end.

(** Lines 43-48: the system tag, from [--system] or from
    [platform.machine().lower()]. *)
Definition detect_system (system : option string) (machine : string) : string :=
  match system with
  | Some (String c s) => String c s
  | _ =>
      if str_contains "arm" machine || str_contains "aarch" machine
      then "raspberry-pi" else "linux"
  end.

(** Lines 54-57: one step of the loop over the library files. *)
Definition add_lib (pv_lib_paths : list (string * string)) (lib_path : Path.t)
  : list (string * string) :=
  let lib_lang := last_piece (Path.stem lib_path) in
  dict_set lib_lang (Path.str lib_path) pv_lib_paths.

(** Lines 61-68: one step of the loop over the keyword files shipped. *)
Definition add_resource (system : string) (keywords : list (string * Keyword.t))
    (kw_path : Path.t) : list (string * Keyword.t) :=
  let kw_system := last_piece (Path.stem kw_path) in
  if negb (String.eqb kw_system system) then keywords
  else
    let kw_lang := Path.parent_parent_name kw_path in
    let kw_name := rsplit_head (Path.stem kw_path) in
    dict_set kw_name (Keyword.mk kw_lang kw_name (Path.str kw_path)) keywords.

(** Lines 72-85: one step of the loop over the custom keyword files. The
    tuple assignment raises unless the split gives four parts; the bare
    [except] then skips the file. *)
Definition add_custom (system : string) (keywords : list (string * Keyword.t))
    (kw_path : Path.t) : list (string * Keyword.t) :=
  match str_split_max "_"%char (Path.stem kw_path) 3 with
  | [kw_name; kw_lang; kw_system; _] =>
      if negb (String.eqb kw_system system) then keywords
      else dict_set kw_name (Keyword.mk kw_lang kw_name (Path.str kw_path)) keywords
  | _ => keywords
  end.

(** Lines 60-85: the keyword mapping, from the shipped files and then the
    files of each custom directory. *)
Definition discover_keywords (system : string) (resources : list Path.t)
    (custom_dirs : list (list Path.t)) : list (string * Keyword.t) :=
  fold_left (add_custom system) (concat custom_dirs)
    (fold_left (add_resource system) resources []).

Definition discover_libs (libs : list Path.t) : list (string * string) :=
  fold_left add_lib libs [].

Module WakeModel.
(** The fields of the wyoming [WakeModel] that vary: lines 98-107. *)
Record t : Type := mk {
  name : string;
  description : string;
  languages : list string;
}.
End WakeModel.

(** Lines 97-109: one advertised model per keyword, in [keywords.values()]
    order. *)
Definition wake_models (keywords : list (string * Keyword.t)) : list WakeModel.t :=
  map (fun kv =>
         let kw := snd kv in
         WakeModel.mk (Keyword.name kw)
           (Keyword.name kw ++ " (" ++ Keyword.language kw ++ ")")%string
           [Keyword.language kw])
      keywords.

(** Line 114: [State(pv_lib_paths=pv_lib_paths, keywords=keywords)], the
    dictionaries seen as maps; [State.__init__] starts with an empty cache. *)
Definition initial_state (pv_lib_paths : list (string * string))
    (keywords : list (string * Keyword.t)) : State :=
  {| pv_lib_paths := list_to_map pv_lib_paths;
     keywords := list_to_map keywords;
     detector_cache := ∅ |}.

(** Where an entry of the keyword mapping comes from: a shipped file or a
    custom file of the running system, with the fields read off its path. *)
Definition from_file (system : string) (k : string) (kw : Keyword.t) (p : Path.t)
  : Prop :=
  Keyword.model_path kw = Path.str p
  /\ Keyword.name kw = k
  /\ ((last_piece (Path.stem p) = system
       /\ k = rsplit_head (Path.stem p)
       /\ Keyword.language kw = Path.parent_parent_name p)
      \/ exists tail,
           str_split_max "_"%char (Path.stem p) 3
           = [k; Keyword.language kw; system; tail]).

(** Every entry of the mapping [d] comes from one of [files]. *)
Definition sourced (system : string) (files : list Path.t)
    (d : list (string * Keyword.t)) : Prop :=
  forall k kw, (k, kw) ∈ d -> exists p, p ∈ files /\ from_file system k kw p.

(** ** The test helper [TeeStreamReader]

    The wrapped [asyncio.StreamReader] is outside the program: [reader r c]
    is what it answers to the call [c] in its state [r] ([None] when it
    raises) and its next state. *)
Module Tee.

Inductive Call : Type :=
| Readline
| Readexactly (n : Z)
| Read (n : Z)
| Readuntil (separator : bytes).

(** The fields [_reader] (its state) and [_buffer]. *)
Record t (R : Type) : Type := mk {
  _reader : R;
  _buffer : bytes;
}.
Arguments mk {R} _ _.
Arguments _reader {R} _.
Arguments _buffer {R} _.

(** [readline], [readexactly], [read] and [readuntil]: forward the call,
    extend the buffer with what came back, return it. When the reader
    raises, the exception passes through before the buffer is touched. *)
Definition call {R : Type} (reader : R -> Call -> option bytes * R)
    (c : Call) (self : t R) : option bytes * t R :=
  match reader (_reader self) c with
  | (Some data, r') => (Some data, mk r' (_buffer self ++ data))
  | (None, r') => (None, mk r' (_buffer self))
  end.

(** [get_debug_buffer] *)
Definition get_debug_buffer {R : Type} (self : t R) : bytes := _buffer self.

(** A run of calls: the results in order, and the reader afterwards. *)
Fixpoint calls {R : Type} (reader : R -> Call -> option bytes * R)
    (cs : list Call) (self : t R) : list (option bytes) * t R :=
  match cs with
  | [] => ([], self)
  | c :: cs' =>
      let (res, self') := call reader c self in
      let (ress, self'') := calls reader cs' self' in
      (res :: ress, self'')
  end.

(** The same calls made on the wrapped reader directly. *)
Fixpoint direct {R : Type} (reader : R -> Call -> option bytes * R)
    (cs : list Call) (r : R) : list (option bytes) * R :=
  match cs with
  | [] => ([], r)
  | c :: cs' =>
      let (res, r') := reader r c in
      let (ress, r'') := direct reader cs' r' in
      (res :: ress, r'')
  end.

End Tee.

(** ** Lemmas on framing *)

Section Framing.
Variable n : nat.
Hypothesis n_pos : 0 < n.

Lemma frames_short (b : bytes) :
  length b < n -> frames n b = [] /\ rest n b = b.
Proof using n_pos.
  intros Hlt. unfold frames, rest.
  rewrite Nat.div_small by exact Hlt. split; reflexivity.
Qed.

Lemma div_step (m : nat) : n <= m -> m / n = S ((m - n) / n).
Proof using n_pos.
  intros Hle.
  replace m with ((m - n) + 1 * n) at 1 by lia.
  rewrite Nat.div_add by lia. lia.
Qed.

Lemma frames_long (b : bytes) :
  n <= length b ->
  frames n b = take n b :: frames n (drop n b) /\ rest n b = rest n (drop n b).
Proof using n_pos.
  intros Hle. unfold frames, rest.
  rewrite (div_step (length b)) by exact Hle.
  rewrite length_drop. split; [reflexivity|].
  rewrite drop_drop. f_equal; simpl; lia.
Qed.

Lemma rest_length (b : bytes) : length (rest n b) < n.
Proof using n_pos.
  unfold rest. rewrite length_drop.
  pose proof (Nat.div_mod_eq (length b) n) as Hdm.
  pose proof (Nat.mod_upper_bound (length b) n) as Hub.
  nia.
Qed.

(** Frames are cut left to right: what was buffered is cut first, and the
    bytes appended later only extend what was left over. *)
Lemma frames_app (b x : bytes) :
  frames n (b ++ x) = frames n b ++ frames n (rest n b ++ x)
  /\ rest n (b ++ x) = rest n (rest n b ++ x).
Proof using n_pos.
  remember (length b) as m eqn:Hm.
  revert b Hm. induction (lt_wf m) as [m _ IH]. intros b Hm.
  destruct (Nat.lt_ge_cases (length b) n) as [Hlt | Hge].
  - destruct (frames_short b Hlt) as [-> ->]. split; reflexivity.
  - destruct (frames_long b Hge) as [-> ->].
    assert (Hge' : n <= length (b ++ x)) by (rewrite length_app; lia).
    destruct (frames_long (b ++ x) Hge') as [-> ->].
    rewrite take_app_le, drop_app_le by exact Hge.
    assert (Hlt : length (drop n b) < m) by (rewrite length_drop; lia).
    destruct (IH (length (drop n b)) Hlt (drop n b) eq_refl) as [-> ->].
    split; reflexivity.
Qed.

Lemma frames_all_full (b f : bytes) : f ∈ frames n b -> length f = n.
Proof using n_pos.
  remember (length b) as m eqn:Hm.
  revert b Hm. induction (lt_wf m) as [m _ IH]. intros b Hm Hin.
  destruct (Nat.lt_ge_cases (length b) n) as [Hlt | Hge].
  - destruct (frames_short b Hlt) as [E _]. rewrite E in Hin.
    inversion Hin.
  - destruct (frames_long b Hge) as [E _]. rewrite E in Hin.
    apply elem_of_cons in Hin as [-> | Hin].
    + rewrite length_take. lia.
    + assert (Hlt : length (drop n b) < m) by (rewrite length_drop; lia).
      exact (IH (length (drop n b)) Hlt (drop n b) eq_refl Hin).
Qed.

(** Nothing is lost or reordered: the frames followed by the rest are the
    buffer. *)
Lemma frames_concat (b : bytes) : concat (frames n b) ++ rest n b = b.
Proof using n_pos.
  remember (length b) as m eqn:Hm.
  revert b Hm. induction (lt_wf m) as [m _ IH]. intros b Hm.
  destruct (Nat.lt_ge_cases (length b) n) as [Hlt | Hge].
  - destruct (frames_short b Hlt) as [-> ->]. reflexivity.
  - destruct (frames_long b Hge) as [-> ->]. simpl.
    assert (Hlt : length (drop n b) < m) by (rewrite length_drop; lia).
    rewrite <- app_assoc, (IH (length (drop n b)) Hlt (drop n b) eq_refl).
    apply take_drop.
Qed.

End Framing.

(** ** Lemmas on the primitives *)

Lemma unpack_from_h (le : bool) (n : nat) (b : bytes) :
  n * 2 <= length b ->
  unpack_from le (str_repeat_h n) b = Some (samples le (take (n * 2) b)).
Proof.
  revert b. induction n as [|n IH]; intros b Hlen; [reflexivity|].
  destruct b as [|b0 [|b1 b]]; simpl in Hlen; try lia.
  simpl. rewrite IH by lia. reflexivity.
Qed.

Lemma samples_length (le : bool) (n : nat) (b : bytes) :
  length b = n * 2 -> length (samples le b) = n.
Proof.
  revert b. induction n as [|n IH]; intros b Hlen.
  - destruct b; [reflexivity | discriminate].
  - destruct b as [|b0 [|b1 b]]; simpl in Hlen; try lia.
    simpl. rewrite IH by lia. reflexivity.
Qed.

Lemma set_audio_buffer_same (self : PorcupineEventHandler) :
  set_audio_buffer (audio_buffer self) self = self.
Proof. destruct self; reflexivity. Qed.

Lemma bind_detector_armed (d : Detector.t) (kw : string) (self : PorcupineEventHandler) :
  armed d (bind_detector d kw self).
Proof. repeat split. Qed.

Lemma feed_calls env d kw ts id fs w :
  calls (feed env d kw ts id fs w)
  = calls w ++ map (fun f => (Detector.handle d, f)) fs.
Proof.
  revert w. induction fs as [|f fs IH]; intros w; simpl.
  - rewrite app_nil_r. reflexivity.
  - rewrite IH. destruct (0 <=? _)%Z; simpl; rewrite <- app_assoc; reflexivity.
Qed.

Lemma feed_state env d kw ts id fs w :
  state (feed env d kw ts id fs w) = state w
  /\ next_handle (feed env d kw ts id fs w) = next_handle w.
Proof.
  revert w. induction fs as [|f fs IH]; intros w; simpl; [split; reflexivity|].
  destruct (IH (if (0 <=? pv_process env (Detector.handle d)
                             (history (Detector.handle d) w) f)%Z
                then log_written id (Detection kw ts) (log_call (Detector.handle d) f w)
                else log_call (Detector.handle d) f w)) as [-> ->].
  destruct (0 <=? _)%Z; split; reflexivity.
Qed.

(** ** The frame loop *)

Section Loop.
Variable env : Env.

(** With a positive frame size and enough fuel the loop returns: it has
    handed the full frames of the buffer to the detector, left to right,
    and the rest stays buffered. *)
Lemma while_frames_spec (m fuel : nat) d ts self w :
  chunk_format self = str_repeat_h m ->
  bytes_per_chunk self = m * 2 ->
  0 < m ->
  length (audio_buffer self) / (m * 2) < fuel ->
  while_frames env fuel d ts self w
  = (Return tt,
     set_audio_buffer (rest (m * 2) (audio_buffer self)) self,
     feed env d (keyword_name self) ts (client_id self)
       (map (samples (little_endian env)) (frames (m * 2) (audio_buffer self))) w).
Proof.
  intros Hfmt Hbpc Hm. assert (Hn : 0 < m * 2) by lia.
  revert self w Hfmt Hbpc.
  induction fuel as [|fuel IH]; intros self w Hfmt Hbpc Hfuel; [lia|].
  simpl. rewrite Hbpc.
  destruct (Nat.leb_spec (m * 2) (length (audio_buffer self))) as [Hge | Hlt].
  - destruct (frames_long (m * 2) Hn (audio_buffer self) Hge) as [-> ->].
    rewrite Hfmt, unpack_from_h by (rewrite length_take; lia).
    rewrite take_take, Nat.min_id.
    unfold bind at 1. unfold process at 1.
    unfold bind at 1.
    rewrite (div_step (m * 2) Hn _ Hge) in Hfuel.
    cbn [map feed].
    set (k := pv_process env _ _ _).
    destruct (0 <=? k)%Z; unfold write_event, ret, bind, consume_frame;
      cbn [bytes_per_chunk audio_buffer set_audio_buffer];
      rewrite Hbpc, IH; simpl; try assumption; try reflexivity;
      rewrite length_drop; lia.
  - destruct (frames_short (m * 2) Hn (audio_buffer self) Hlt) as [-> ->].
    rewrite set_audio_buffer_same. reflexivity.
Qed.

(** With frame size 0 the condition of the loop never fails and the
    buffer never shrinks: the loop does not return, whatever the fuel. *)
Lemma while_frames_zero (fuel : nat) d ts self w :
  chunk_format self = "" ->
  bytes_per_chunk self = 0 ->
  fst (fst (while_frames env fuel d ts self w)) = OutOfFuel.
Proof.
  revert self w. induction fuel as [|fuel IH]; intros self w Hfmt Hbpc;
    [reflexivity|].
  simpl. rewrite Hbpc, Hfmt. simpl.
  unfold bind at 1. unfold process at 1. unfold bind at 1.
  destruct (0 <=? _)%Z; unfold write_event, ret, bind, consume_frame; simpl;
    rewrite Hbpc, drop_0.
  - specialize (IH (set_audio_buffer (audio_buffer self) self)
                  (log_written (client_id self) (Detection (keyword_name self) ts)
                     (log_call (Detector.handle d) [] w)) Hfmt Hbpc).
    destruct (while_frames _ _ _ _ _ _) as [[[| |] ?] ?]; simpl in IH;
      try discriminate; reflexivity.
  - specialize (IH (set_audio_buffer (audio_buffer self) self)
                  (log_call (Detector.handle d) [] w) Hfmt Hbpc).
    destruct (while_frames _ _ _ _ _ _) as [[[| |] ?] ?]; simpl in IH;
      try discriminate; reflexivity.
Qed.

(** Whenever the loop returns, less than one frame is left. *)
Lemma while_frames_exit (fuel : nat) d ts self w self' w' :
  while_frames env fuel d ts self w = (Return tt, self', w') ->
  length (audio_buffer self') < bytes_per_chunk self'.
Proof.
  revert self w. induction fuel as [|fuel IH]; intros self w; simpl;
    [discriminate|].
  destruct (Nat.leb_spec (bytes_per_chunk self) (length (audio_buffer self)))
    as [Hge | Hlt].
  - destruct (unpack_from _ _ _) as [u|]; [|discriminate].
    unfold bind at 1. unfold process at 1. unfold bind at 1.
    destruct (0 <=? _)%Z; unfold write_event, ret, bind, consume_frame; simpl;
      match goal with
      | |- context [while_frames env fuel d ts ?s ?x] =>
          specialize (IH s x);
          destruct (while_frames env fuel d ts s x) as [[[[]| |] ?] ?]
      end; intros E; try discriminate; apply IH; exact E.
  - intros E. inversion E; subst. exact Hlt.
Qed.

End Loop.

(** ** Audio chunks *)

Section Chunks.
Variable env : Env.

Lemma div_lt_fuel (a n fuel : nat) : 0 < n -> a < fuel -> a / n < fuel.
Proof. intros Hn Hlt. apply Nat.Div0.div_lt_upper_bound; nia. Qed.

Lemma rest_le (n : nat) (b : bytes) : length (rest n b) <= length b.
Proof. unfold rest. rewrite length_drop. lia. Qed.

(** One [AudioChunk] event on a bound handler. *)
Lemma handle_chunk_armed (fuel : nat) d c self w :
  armed d self ->
  0 < Porcupine.frame_length (Detector.porcupine d) ->
  length (audio_buffer self ++ AudioChunk.audio (convert env c)) < fuel ->
  handle_event env fuel (AudioChunk c) self w
  = (Return true,
     set_audio_buffer
       (rest (bytes_per_chunk self)
          (audio_buffer self ++ AudioChunk.audio (convert env c))) self,
     feed env d (keyword_name self) (AudioChunk.timestamp (convert env c))
       (client_id self)
       (map (samples (little_endian env))
          (frames (bytes_per_chunk self)
             (audio_buffer self ++ AudioChunk.audio (convert env c)))) w).
Proof.
  intros (Hd & Hfmt & Hbpc) Hpos Hfuel.
  unfold handle_event, bind. rewrite Hd. cbn beta iota. rewrite Hd.
  cbn zeta.
  rewrite (while_frames_spec env (Porcupine.frame_length (Detector.porcupine d)));
    try assumption.
  - simpl. rewrite Hbpc. reflexivity.
  - simpl. apply div_lt_fuel; [lia | exact Hfuel].
Qed.

(** A run of one or more [AudioChunk] events on a bound handler: the
    detector gets the frames of the old buffer followed by all the bytes,
    whatever the chunk boundaries are. *)
Lemma handle_chunks_armed (fuel : nat) d cs : forall c self w,
  armed d self ->
  0 < Porcupine.frame_length (Detector.porcupine d) ->
  length (audio_buffer self ++ converted_bytes env (c :: cs)) < fuel ->
  exists w',
    handle_events env fuel (map AudioChunk (c :: cs)) self w
    = (Return true,
       set_audio_buffer
         (rest (bytes_per_chunk self)
            (audio_buffer self ++ converted_bytes env (c :: cs)))
         self, w')
    /\ calls w'
       = calls w
         ++ map (fun f => (Detector.handle d, samples (little_endian env) f))
              (frames (bytes_per_chunk self)
                 (audio_buffer self ++ converted_bytes env (c :: cs)))
    /\ state w' = state w /\ next_handle w' = next_handle w.
Proof.
  induction cs as [|c' cs IH]; intros c self w Harmed Hpos Hfuel.
  - unfold converted_bytes in *. cbn [map concat] in *.
    rewrite app_nil_r in *.
    cbn [handle_events]. unfold bind at 1.
    rewrite (handle_chunk_armed fuel d) by assumption.
    eexists. split; [reflexivity|].
    rewrite feed_calls, map_map.
    split; [reflexivity | apply feed_state].
  - assert (Hn : 0 < bytes_per_chunk self)
      by (destruct Harmed as (_ & _ & ->); lia).
    change (converted_bytes env (c :: c' :: cs))
      with (AudioChunk.audio (convert env c) ++ converted_bytes env (c' :: cs)) in *.
    rewrite app_assoc in *.
    set (b1 := audio_buffer self ++ AudioChunk.audio (convert env c)) in *.
    cbn [map handle_events]. unfold bind at 1.
    rewrite (handle_chunk_armed fuel d) by
      (try assumption; fold b1; rewrite length_app in Hfuel; lia).
    fold b1. cbn [map handle_events] in IH.
    set (self1 := set_audio_buffer (rest (bytes_per_chunk self) b1) self).
    set (w1 := feed _ _ _ _ _ _ _).
    destruct (IH c' self1 w1) as (w' & Hrun & Hcalls & Hst & Hnh).
    + exact Harmed.
    + exact Hpos.
    + subst self1. cbn [audio_buffer set_audio_buffer].
      rewrite length_app in *.
      pose proof (rest_le (bytes_per_chunk self) b1). lia.
    + exists w'. subst self1. cbn [audio_buffer set_audio_buffer bytes_per_chunk] in *.
      destruct (frames_app _ Hn b1 (converted_bytes env (c' :: cs))) as [-> ->].
      split; [exact Hrun|].
      subst w1. rewrite feed_calls, map_map in Hcalls.
      destruct (feed_state env d (keyword_name self)
                  (AudioChunk.timestamp (convert env c)) (client_id self)
                  (map (samples (little_endian env))
                     (frames (bytes_per_chunk self) b1)) w) as [Hs Hh].
      rewrite Hcalls, map_app, app_assoc, Hst, Hnh. auto.
Qed.

End Chunks.

(** ** The detector cache *)

Lemma list_remove_subseteq (x : Detector.t) (l : list Detector.t) :
  list_remove x l ⊆ l.
Proof.
  induction l as [|y l IH]; simpl; [done|].
  destruct (Detector.is_ y x || Detector.eq_ y x).
  - intros z Hz. apply list_elem_of_further, Hz.
  - intros z Hz. apply elem_of_cons in Hz as [-> | Hz].
    + apply list_elem_of_here.
    + apply list_elem_of_further, IH, Hz.
Qed.

Section Cache.
Variable env : Env.

Lemma cache_take_Some kw s cache d cache' :
  cache_take kw s cache = Some (d, cache') ->
  exists l, cache !! kw = Some l /\ d ∈ l
            /\ PrimFloat.eqb (Detector.sensitivity d) s = true
            /\ cache' = <[kw := list_remove d l]> cache.
Proof.
  unfold cache_take. destruct (cache !! kw) as [[|d0 l]|] eqn:Hk; try discriminate.
  destruct (find _ _) as [x|] eqn:Hfind; [|discriminate].
  intros E. inversion E; subst. apply find_some in Hfind as [Hin Heq].
  exists (d0 :: l). rewrite list_elem_of_In. auto.
Qed.

Lemma cache_take_None kw s cache :
  cache_take kw s cache = None ->
  forall x, x ∈ default [] (cache !! kw) ->
            PrimFloat.eqb (Detector.sensitivity x) s = false.
Proof.
  unfold cache_take. intros H x Hx.
  destruct (cache !! kw) as [[|d0 l]|] eqn:Hk; simpl in Hx;
    try (inversion Hx; fail).
  destruct (find _ _) as [y|] eqn:Hfind; [discriminate|].
  apply list_elem_of_In in Hx.
  exact (find_none _ _ Hfind x Hx).
Qed.

(** The two ways [get_porcupine] returns: a cached detector of equal
    sensitivity, taken out of the idle list; or, when there is none, a new
    one, the cache untouched. *)
Lemma get_porcupine_Return kw s key w d w' :
  get_porcupine env kw s key w = (Return d, w') ->
  (exists l, detector_cache (state w) !! kw = Some l /\ d ∈ l
             /\ PrimFloat.eqb (Detector.sensitivity d) s = true
             /\ w' = set_detector_cache
                       (<[kw := list_remove d l]> (detector_cache (state w))) w)
  \/ ((forall x, x ∈ idle w kw -> PrimFloat.eqb (Detector.sensitivity x) s = false)
      /\ exists kwd lib n,
           keywords (state w) !! kw = Some kwd
           /\ pv_lib_paths (state w) !! Keyword.language kwd = Some lib
           /\ pv_create env lib (Keyword.model_path kwd) s key = Some n
           /\ d = Detector.mk (Porcupine.mk (next_handle w) n) s
           /\ w' = set_next_handle (S (next_handle w)) w).
Proof.
  unfold get_porcupine.
  destruct (keywords (state w) !! kw) as [kwd|] eqn:Hkw; [|discriminate].
  destruct (cache_take kw s _) as [[d1 c1]|] eqn:Htake.
  - intros E. inversion E; subst. left.
    destruct (cache_take_Some _ _ _ _ _ Htake) as (l & ? & ? & ? & ->). eauto.
  - destruct (pv_lib_paths (state w) !! _) as [lib|] eqn:Hlib; [|discriminate].
    destruct (pv_create env lib _ s key) as [n|] eqn:Hc; [|discriminate].
    intros E. inversion E; subst. right. split.
    + exact (cache_take_None _ _ _ Htake).
    + exists kwd, lib, n. auto.
Qed.

(** A call that raises leaves the world as it was. *)
Lemma get_porcupine_Raise kw s key w e w' :
  get_porcupine env kw s key w = (Raise e, w') -> w' = w.
Proof.
  unfold get_porcupine.
  destruct (keywords (state w) !! kw) as [kwd|]; [|congruence].
  destruct (cache_take kw s _) as [[d1 c1]|]; [discriminate|].
  destruct (pv_lib_paths (state w) !! _) as [lib|]; [|congruence].
  destruct (pv_create env lib _ s key) as [n|]; congruence.
Qed.

Lemma get_porcupine_fuel kw s key w w' :
  get_porcupine env kw s key w <> (OutOfFuel, w').
Proof.
  unfold get_porcupine.
  destruct (keywords (state w) !! kw) as [kwd|]; [|congruence].
  destruct (cache_take kw s _) as [[d1 c1]|]; [discriminate|].
  destruct (pv_lib_paths (state w) !! _) as [lib|]; [|congruence].
  destruct (pv_create env lib _ s key) as [n|]; congruence.
Qed.

(** [get_porcupine] makes no [process] call and writes no event; the
    keyword tables stay as they are. *)
Lemma get_porcupine_frame kw s key w o w' :
  get_porcupine env kw s key w = (o, w') ->
  calls w' = calls w /\ written w' = written w
  /\ keywords (state w') = keywords (state w)
  /\ pv_lib_paths (state w') = pv_lib_paths (state w).
Proof.
  unfold get_porcupine.
  destruct (keywords (state w) !! kw) as [kwd|];
    [|intros E; inversion E; subst; auto].
  destruct (cache_take kw s _) as [[d1 c1]|];
    [intros E; inversion E; subst; auto|].
  destruct (pv_lib_paths (state w) !! _) as [lib|];
    [|intros E; inversion E; subst; auto].
  destruct (pv_create env lib _ s key) as [n|];
    intros E; inversion E; subst; auto.
Qed.


End Cache.

(** ** Binding a keyword *)

Section Load.
Variable env : Env.

Lemma load_keyword_Return kw self w u self' w' :
  _load_keyword env kw self w = (Return u, self', w') ->
  exists d,
    get_porcupine env kw (sensitivity (cli_args self))
      (access_key (cli_args self)) w = (Return d, w')
    /\ self' = bind_detector d kw self.
Proof.
  unfold _load_keyword.
  destruct (get_porcupine env kw _ _ w) as [[d|e|] w1]; intros E;
    inversion E; subst. eauto.
Qed.

Lemma load_keyword_get kw self w d w' :
  get_porcupine env kw (sensitivity (cli_args self))
    (access_key (cli_args self)) w = (Return d, w') ->
  _load_keyword env kw self w = (Return tt, bind_detector d kw self, w').
Proof. unfold _load_keyword. intros ->. reflexivity. Qed.

End Load.

(** ** The claims *)

(** C7. [get_porcupine] called with a keyword name that is not in the
    keyword mapping raises [ValueError] and returns no detector; the world,
    and with it the detector cache and the keyword mapping of the shared
    [State], is exactly as before. *)
Theorem get_porcupine_unknown_keyword (env : Env) (kw : string) (s : float)
    (key : string) (w : World) :
  keywords (state w) !! kw = None ->
  get_porcupine env kw s key w = (Raise (ValueError ("No keyword " ++ kw)%string), w)
  /\ detector_cache (state (snd (get_porcupine env kw s key w)))
     = detector_cache (state w)
  /\ keywords (state (snd (get_porcupine env kw s key w))) = keywords (state w).
Proof.
  intros Hnone. unfold get_porcupine. rewrite Hnone. auto.
Qed.

Lemma get_porcupine_unknown_keyword_witness :
  keywords (state Demo.w0) !! "alexa" = None
  /\ get_porcupine Demo.env "alexa" 0.5%float "key" Demo.w0
     = (Raise (ValueError "No keyword alexa"), Demo.w0).
Proof.
  split; [reflexivity|].
  apply (get_porcupine_unknown_keyword Demo.env "alexa" 0.5%float "key" Demo.w0).
  reflexivity.
Defined.

(** C10. A [Detect] event whose names list is empty (or absent) is ignored:
    [handle_event] returns [True] and the handler object (detector, keyword
    name, audio buffer, detected flag) and the world are unchanged. *)
Theorem detect_without_names_ignored (env : Env) (fuel : nat)
    (self : PorcupineEventHandler) (w : World) :
  handle_event env fuel (Detect (Some [])) self w = (Return true, self, w)
  /\ handle_event env fuel (Detect None) self w = (Return true, self, w).
Proof. split; reflexivity. Qed.

Lemma cache_take_miss (kw : string) (s : float) (w : World) :
  (forall x, x ∈ idle w kw -> PrimFloat.eqb (Detector.sensitivity x) s = false) ->
  cache_take kw s (detector_cache (state w)) = None.
Proof.
  unfold idle, cache_take. intros Hno.
  destruct (detector_cache (state w) !! kw) as [[|d0 l]|]; try reflexivity.
  destruct (find _ _) as [x|] eqn:Hfind; [|reflexivity].
  apply find_some in Hfind as [Hin Heq].
  rewrite (Hno x) in Heq; [discriminate|].
  apply list_elem_of_In. exact Hin.
Qed.

Lemma cache_take_hit (kw : string) (s : float) (w : World) (x : Detector.t) :
  x ∈ idle w kw ->
  PrimFloat.eqb (Detector.sensitivity x) s = true ->
  exists d,
    cache_take kw s (detector_cache (state w))
    = Some (d, <[kw := list_remove d (idle w kw)]> (detector_cache (state w)))
    /\ d ∈ idle w kw
    /\ PrimFloat.eqb (Detector.sensitivity d) s = true.
Proof.
  unfold idle, cache_take. intros Hx Heq.
  destruct (detector_cache (state w) !! kw) as [[|d0 l]|];
    try (inversion Hx; fail).
  change (default [] (Some (d0 :: l))) with (d0 :: l) in *.
  cbv beta iota.
  destruct (find (fun d => PrimFloat.eqb (Detector.sensitivity d) s) (d0 :: l))
    as [d|] eqn:Hfind.
  - apply find_some in Hfind as [Hin Hd]. exists d.
    split; [reflexivity|]. split; [apply list_elem_of_In, Hin | exact Hd].
  - apply list_elem_of_In in Hx.
    rewrite (find_none _ _ Hfind x Hx) in Heq. discriminate.
Qed.

(** C4. For a known keyword, [get_porcupine] returns a cached detector only
    on equal sensitivity (float [==]) and builds otherwise. If the idle list
    of the keyword holds a detector whose sensitivity equals the requested
    one, the call returns one of the idle list with equal sensitivity and
    takes it out of that list. If no idle detector has equal sensitivity and
    [pvporcupine.create] succeeds, the call returns a new detector, built
    with exactly the requested sensitivity, and the cache is left as it was
    (the new detector is not put into it). And whenever the call returns, it
    is in one of these two ways. *)
Theorem get_porcupine_sensitivity_exact (env : Env) (kw : string) (s : float)
    (key : string) (w : World) :
  (forall kwd,
      keywords (state w) !! kw = Some kwd ->
      (exists x, x ∈ idle w kw /\ PrimFloat.eqb (Detector.sensitivity x) s = true) ->
      exists d,
        get_porcupine env kw s key w
        = (Return d,
           set_detector_cache
             (<[kw := list_remove d (idle w kw)]> (detector_cache (state w))) w)
        /\ d ∈ idle w kw
        /\ PrimFloat.eqb (Detector.sensitivity d) s = true)
  /\ (forall kwd lib n,
        keywords (state w) !! kw = Some kwd ->
        (forall x, x ∈ idle w kw ->
           PrimFloat.eqb (Detector.sensitivity x) s = false) ->
        pv_lib_paths (state w) !! Keyword.language kwd = Some lib ->
        pv_create env lib (Keyword.model_path kwd) s key = Some n ->
        get_porcupine env kw s key w
        = (Return (Detector.mk (Porcupine.mk (next_handle w) n) s),
           set_next_handle (S (next_handle w)) w)
        /\ detector_cache (state (set_next_handle (S (next_handle w)) w))
           = detector_cache (state w))
  /\ (forall d w',
        get_porcupine env kw s key w = (Return d, w') ->
        ((exists x, x ∈ idle w kw
                    /\ PrimFloat.eqb (Detector.sensitivity x) s = true) ->
           d ∈ idle w kw
           /\ PrimFloat.eqb (Detector.sensitivity d) s = true
           /\ detector_cache (state w')
              = <[kw := list_remove d (idle w kw)]> (detector_cache (state w))
           /\ next_handle w' = next_handle w)
        /\ ((forall x, x ∈ idle w kw ->
                PrimFloat.eqb (Detector.sensitivity x) s = false) ->
           Detector.sensitivity d = s
           /\ Detector.handle d = next_handle w
           /\ next_handle w' = S (next_handle w)
           /\ detector_cache (state w') = detector_cache (state w))).
Proof.
  split; [|split].
  - intros kwd Hkw (x & Hx & Heq).
    destruct (cache_take_hit kw s w x Hx Heq) as (d & Htake & Hin & Hd).
    exists d. unfold get_porcupine. rewrite Hkw, Htake. auto.
  - intros kwd lib n Hkw Hno Hlib Hcreate. unfold get_porcupine.
    rewrite Hkw, (cache_take_miss kw s w Hno), Hlib, Hcreate. auto.
  - intros d w' Hget.
    apply get_porcupine_Return in Hget
      as [(l & Hl & Hin & Heq & ->) | (Hnone & kwd & lib & n & _ & _ & _ & -> & ->)].
    + assert (Hidle : idle w kw = l) by (unfold idle; rewrite Hl; reflexivity).
      rewrite Hidle. split.
      * intros _. auto.
      * intros Hnone. rewrite (Hnone d Hin) in Heq. discriminate.
    + split.
      * intros (x & Hx & Heq). rewrite (Hnone x Hx) in Heq. discriminate.
      * intros _. auto.
Qed.

Lemma get_porcupine_sensitivity_exact_witness :
  (exists d,
     get_porcupine Demo.env "porcupine" 0.5%float "key" Demo.w_cached
     = (Return d,
        set_detector_cache
          (<["porcupine" := list_remove d (idle Demo.w_cached "porcupine")]>
             (detector_cache (state Demo.w_cached))) Demo.w_cached)
     /\ d ∈ idle Demo.w_cached "porcupine"
     /\ PrimFloat.eqb (Detector.sensitivity d) 0.5%float = true)
  /\ get_porcupine Demo.env "porcupine" 0.75%float "key" Demo.w_cached
     = (Return (Detector.mk (Porcupine.mk 2 2) 0.75%float),
        set_next_handle 3 Demo.w_cached).
Proof.
  destruct (get_porcupine_sensitivity_exact Demo.env "porcupine" 0.5%float "key"
              Demo.w_cached) as (Hhit & _ & _).
  destruct (get_porcupine_sensitivity_exact Demo.env "porcupine" 0.75%float "key"
              Demo.w_cached) as (_ & Hmiss & _).
  split.
  - apply (Hhit (Keyword.mk "en" "porcupine" "porcupine.ppn")); [reflexivity|].
    exists (Detector.mk (Porcupine.mk 1 2) 0.5%float). split.
    + apply list_elem_of_further, list_elem_of_here.
    + reflexivity.
  - apply (Hmiss (Keyword.mk "en" "porcupine" "porcupine.ppn")
             "porcupine_params_en.pv" 2); try reflexivity.
    intros x Hx.
    change (idle Demo.w_cached "porcupine")
      with [Detector.mk (Porcupine.mk 0 2) 0.25%float;
            Detector.mk (Porcupine.mk 1 2) 0.5%float] in Hx.
    apply elem_of_cons in Hx as [-> | Hx]; [reflexivity|].
    apply list_elem_of_singleton in Hx as ->. reflexivity.
Defined.

(** C8. An [AudioChunk] event that arrives while no detector is bound makes
    the handler bind the default keyword ["porcupine"] through
    [get_porcupine] first: when that call returns the detector [d], the
    handler ends bound to [d] under the keyword name ["porcupine"], and the
    frames cut from the buffer and the bytes of this chunk are handed to
    [d]. *)
Theorem audio_chunk_binds_default (env : Env) (fuel : nat) (c : AudioChunk.t)
    (self : PorcupineEventHandler) (w : World) (d : Detector.t) (w1 : World) :
  detector self = None ->
  get_porcupine env "porcupine" (sensitivity (cli_args self))
    (access_key (cli_args self)) w = (Return d, w1) ->
  0 < Porcupine.frame_length (Detector.porcupine d) ->
  length (audio_buffer self ++ AudioChunk.audio (convert env c)) < fuel ->
  exists self' w',
    handle_event env fuel (AudioChunk c) self w = (Return true, self', w')
    /\ detector self' = Some d
    /\ keyword_name self' = DEFAULT_KEYWORD
    /\ bytes_per_chunk self' = Porcupine.frame_length (Detector.porcupine d) * 2
    /\ calls w'
       = calls w
         ++ map (fun f => (Detector.handle d, samples (little_endian env) f))
              (frames (Porcupine.frame_length (Detector.porcupine d) * 2)
                 (audio_buffer self ++ AudioChunk.audio (convert env c)))
    /\ audio_buffer self'
       = rest (Porcupine.frame_length (Detector.porcupine d) * 2)
           (audio_buffer self ++ AudioChunk.audio (convert env c)).
Proof.
  intros Hnone Hget Hpos Hfuel.
  pose proof (load_keyword_get env _ _ _ _ _ Hget) as Hload.
  pose proof (get_porcupine_frame env _ _ _ _ _ _ Hget) as (Hcalls & _).
  pose proof (handle_chunk_armed env fuel d c
                (bind_detector d DEFAULT_KEYWORD self) w1
                (bind_detector_armed d DEFAULT_KEYWORD self) Hpos Hfuel) as Hchunk.
  do 2 eexists. split.
  - unfold handle_event, bind in *. rewrite Hnone.
    change "porcupine" with DEFAULT_KEYWORD in Hload. rewrite Hload.
    exact Hchunk.
  - cbn [detector keyword_name bytes_per_chunk audio_buffer set_audio_buffer
           bind_detector].
    rewrite feed_calls, map_map, Hcalls. auto.
Qed.

Lemma audio_chunk_binds_default_witness :
  exists self' w',
    handle_event Demo.env 9 (Demo.chunk [Byte.x01; Byte.x00; Byte.x02; Byte.x00; Byte.x03])
      Demo.h0 Demo.w0 = (Return true, self', w')
    /\ detector self' = Some Demo.d0
    /\ keyword_name self' = "porcupine"
    /\ calls w' = [(0, [1%Z; 2%Z])]
    /\ audio_buffer self' = [Byte.x03].
Proof.
  destruct (audio_chunk_binds_default Demo.env 9
              (Demo.pcm [Byte.x01; Byte.x00; Byte.x02; Byte.x00; Byte.x03])
              Demo.h0 Demo.w0 Demo.d0 Demo.w_bound)
    as (self' & w' & Hrun & Hd & Hk & _ & Hc & Hb).
  - reflexivity.
  - vm_compute. reflexivity.
  - simpl. lia.
  - simpl. lia.
  - exists self', w'. repeat split; assumption.
Defined.

(** C5. On a handler bound to a detector of positive frame length, two runs
    of one or more [AudioChunk] events that carry the same converted bytes in
    total, split at any places, make the same [process] calls: the frames of
    [frame_length * 2] bytes cut left to right from the buffer followed by
    those bytes, in this order; and both runs leave the same handler, whose
    buffer holds the bytes after the last full frame, less than a frame. *)
Theorem frame_alignment (env : Env) (fuel : nat) (d : Detector.t)
    (self : PorcupineEventHandler) (w : World)
    (c1 : AudioChunk.t) (cs1 : list AudioChunk.t)
    (c2 : AudioChunk.t) (cs2 : list AudioChunk.t) :
  armed d self ->
  0 < Porcupine.frame_length (Detector.porcupine d) ->
  converted_bytes env (c1 :: cs1) = converted_bytes env (c2 :: cs2) ->
  length (audio_buffer self ++ converted_bytes env (c1 :: cs1)) < fuel ->
  let total := audio_buffer self ++ converted_bytes env (c1 :: cs1) in
  let n := Porcupine.frame_length (Detector.porcupine d) * 2 in
  exists self' w1 w2,
    handle_events env fuel (map AudioChunk (c1 :: cs1)) self w = (Return true, self', w1)
    /\ handle_events env fuel (map AudioChunk (c2 :: cs2)) self w = (Return true, self', w2)
    /\ calls w1 = calls w2
    /\ calls w1
       = calls w
         ++ map (fun f => (Detector.handle d, samples (little_endian env) f))
              (frames n total)
    /\ audio_buffer self' = rest n total
    /\ length (rest n total) < n
    /\ (forall f, f ∈ frames n total -> length f = n)
    /\ concat (frames n total) ++ rest n total = total.
Proof.
  intros Harmed Hpos Hsame Hfuel total n.
  assert (Hbpc : bytes_per_chunk self = n) by (destruct Harmed as (_ & _ & ->); reflexivity).
  assert (Hn : 0 < n) by (unfold n; lia).
  destruct (handle_chunks_armed env fuel d cs1 c1 self w Harmed Hpos Hfuel)
    as (w1 & Hrun1 & Hcalls1 & _).
  rewrite Hsame in Hfuel.
  destruct (handle_chunks_armed env fuel d cs2 c2 self w Harmed Hpos Hfuel)
    as (w2 & Hrun2 & Hcalls2 & _).
  rewrite <- Hsame in Hrun2, Hcalls2.
  rewrite Hbpc in *. fold total in Hrun1, Hrun2, Hcalls1, Hcalls2.
  exists (set_audio_buffer (rest n total) self), w1, w2.
  repeat split; try assumption.
  - congruence.
  - apply rest_length, Hn.
  - intros f. apply frames_all_full, Hn.
  - apply frames_concat, Hn.
Qed.

Lemma frame_alignment_witness :
  exists self' w1 w2,
    handle_events Demo.env 12
      [Demo.chunk [Byte.x01]; Demo.chunk [Byte.x00; Byte.x07];
       Demo.chunk [Byte.x00; Byte.x02; Byte.x00; Byte.x03; Byte.x00]; Demo.chunk [Byte.x05]]
      Demo.h_bound Demo.w_bound = (Return true, self', w1)
    /\ handle_events Demo.env 12
         [Demo.chunk [Byte.x01; Byte.x00; Byte.x07; Byte.x00; Byte.x02; Byte.x00;
                      Byte.x03; Byte.x00; Byte.x05]]
         Demo.h_bound Demo.w_bound = (Return true, self', w2)
    /\ calls w1 = calls w2
    /\ calls w1 = [(0, [1%Z; 7%Z]); (0, [2%Z; 3%Z])]
    /\ audio_buffer self' = [Byte.x05].
Proof.
  destruct (frame_alignment Demo.env 12 Demo.d0 Demo.h_bound Demo.w_bound
              (Demo.pcm [Byte.x01])
              [Demo.pcm [Byte.x00; Byte.x07];
               Demo.pcm [Byte.x00; Byte.x02; Byte.x00; Byte.x03; Byte.x00];
               Demo.pcm [Byte.x05]]
              (Demo.pcm [Byte.x01; Byte.x00; Byte.x07; Byte.x00; Byte.x02; Byte.x00;
                         Byte.x03; Byte.x00; Byte.x05]) [])
    as (self' & w1 & w2 & H1 & H2 & Heq & Hc & Hb & _).
  - apply bind_detector_armed.
  - simpl. lia.
  - reflexivity.
  - simpl. lia.
  - exists self', w1, w2. repeat split; assumption.
Defined.

(** ** What a [Detect] event with a name does *)

Lemma handle_detect_Return (env : Env) (fuel : nat) kw kws self w b self' w' :
  handle_event env fuel (Detect (Some (kw :: kws))) self w = (Return b, self', w') ->
  b = true
  /\ exists d,
       get_porcupine env kw (sensitivity (cli_args self))
         (access_key (cli_args self)) w = (Return d, w')
       /\ self' = bind_detector d kw self.
Proof.
  unfold handle_event, bind, ret.
  destruct (_load_keyword env kw self w) as [[[[]|e|] self1] w1] eqn:Hload;
    intros E; inversion E; subst.
  split; [reflexivity|]. exact (load_keyword_Return env _ _ _ _ _ _ Hload).
Qed.

(** C9 (as the code has it). When [handle_event] returns from an
    [AudioChunk] event, the buffer holds fewer than [bytes_per_chunk] bytes;
    on a handler bound by [_load_keyword] to a detector of positive frame
    length it does return, given fuel for the frames. This bound is kept by
    every event that does not lower [bytes_per_chunk]: by [Describe],
    [AudioStart], [AudioChunk], [AudioStop], unknown events and [Detect]
    without names always, and by a [Detect] that binds a detector when the
    new frame size is not below the old one. *)
Theorem chunk_leaves_less_than_a_frame (env : Env) (fuel : nat) :
  (forall c self w b self' w',
      handle_event env fuel (AudioChunk c) self w = (Return b, self', w') ->
      length (audio_buffer self') < bytes_per_chunk self')
  /\ (forall d c self w,
        armed d self ->
        0 < Porcupine.frame_length (Detector.porcupine d) ->
        length (audio_buffer self ++ AudioChunk.audio (convert env c)) < fuel ->
        exists self' w',
          handle_event env fuel (AudioChunk c) self w = (Return true, self', w'))
  /\ (forall e self w b self' w',
        frame_bound self ->
        handle_event env fuel e self w = (Return b, self', w') ->
        bytes_per_chunk self <= bytes_per_chunk self' ->
        frame_bound self').
Proof.
  assert (Hchunk : forall c self w b self' w',
             handle_event env fuel (AudioChunk c) self w = (Return b, self', w') ->
             length (audio_buffer self') < bytes_per_chunk self').
  { intros c self w b self' w'. unfold handle_event, bind, ret.
    destruct (match detector self with
              | Some _ => _
              | None => _
              end) as [[[[]|e|] self1] w1]; try discriminate.
    destruct (detector self1) as [d|]; [|discriminate].
    destruct (while_frames env fuel d _ _ w1) as [[[[]|e|] self2] w2] eqn:Hloop;
      intros E; inversion E; subst.
    exact (while_frames_exit env _ _ _ _ _ _ _ Hloop). }
  split; [exact Hchunk|]. split.
  - intros d c self w Harmed Hpos Hfuel.
    rewrite (handle_chunk_armed env fuel d) by assumption. eauto.
  - intros e self w b self' w' Hinv Hrun Hle.
    destruct e as [|[[|kw kws]|]|r wd ch|c| |ty].
    + unfold handle_event, bind, write_event, ret in Hrun.
      inversion Hrun; subst. exact Hinv.
    + inversion Hrun; subst. exact Hinv.
    + apply handle_detect_Return in Hrun as (_ & d & _ & ->).
      unfold frame_bound in *. simpl in *.
      destruct Hinv as [Hnil | Hlt]; [left; exact Hnil | right; lia].
    + inversion Hrun; subst. exact Hinv.
    + inversion Hrun; subst. exact Hinv.
    + right. exact (Hchunk _ _ _ _ _ _ Hrun).
    + unfold handle_event, bind, write_event, ret in Hrun.
      destruct (detected self); inversion Hrun; subst; exact Hinv.
    + inversion Hrun; subst. exact Hinv.
Qed.

Lemma chunk_leaves_less_than_a_frame_witness :
  frame_bound Demo.h_bound
  /\ frame_bound
       (set_audio_buffer [Byte.x03] Demo.h_bound).
Proof.
  split; [left; reflexivity|].
  destruct (chunk_leaves_less_than_a_frame Demo.env 9) as (_ & _ & Hkeep).
  apply (Hkeep (Demo.chunk [Byte.x01; Byte.x00; Byte.x02; Byte.x00; Byte.x03])
           Demo.h_bound Demo.w_bound true _
           (feed Demo.env Demo.d0 "porcupine" (Some 0%Z) 7 [[1%Z; 2%Z]] Demo.w_bound)).
  - left. reflexivity.
  - vm_compute. reflexivity.
  - simpl. lia.
Defined.

(** C9, the part that fails: a handler holding 3 bytes under a frame size of
    4 is rebound by [Detect] to a detector of frame size 2; it then holds
    more than a full frame between events. *)
Lemma rebind_breaks_frame_bound :
  exists self w self' w',
    handle_events Demo.env 9
      [Detect (Some ["porcupine"]); Demo.chunk [Byte.x01; Byte.x00; Byte.x02]]
      Demo.h0 Demo.w0 = (Return true, self, w)
    /\ length (audio_buffer self) < bytes_per_chunk self
    /\ handle_event Demo.env 9 (Detect (Some ["bumblebee"])) self w
       = (Return true, self', w')
    /\ detector self' = Some Demo.d1
    /\ 0 < bytes_per_chunk self'
    /\ bytes_per_chunk self' <= length (audio_buffer self').
Proof.
  do 4 eexists.
  split; [vm_compute; reflexivity|].
  split; [simpl; lia|].
  split; [vm_compute; reflexivity|].
  split; [reflexivity|].
  split; simpl; lia.
Qed.

(** C6 (as the code has it). A [Detect] event that binds a keyword leaves the
    audio buffer as it is: the handler is bound to the new detector with the
    bytes buffered before still in front, and the next [AudioChunk] hands the
    new detector the frames cut from those bytes followed by the bytes of the
    chunk. *)
Theorem rebind_keeps_buffer (env : Env) (fuel : nat) (kw : string)
    (kws : list string) (self : PorcupineEventHandler) (w : World) (b : bool)
    (self' : PorcupineEventHandler) (w' : World) :
  handle_event env fuel (Detect (Some (kw :: kws))) self w = (Return b, self', w') ->
  audio_buffer self' = audio_buffer self
  /\ detected self' = detected self
  /\ keyword_name self' = kw
  /\ exists d,
       armed d self'
       /\ forall c fuel',
            0 < Porcupine.frame_length (Detector.porcupine d) ->
            length (audio_buffer self ++ AudioChunk.audio (convert env c)) < fuel' ->
            exists self'' w'',
              handle_event env fuel' (AudioChunk c) self' w' = (Return true, self'', w'')
              /\ calls w''
                 = calls w'
                   ++ map (fun f => (Detector.handle d, samples (little_endian env) f))
                        (frames (Porcupine.frame_length (Detector.porcupine d) * 2)
                           (audio_buffer self ++ AudioChunk.audio (convert env c))).
Proof.
  intros Hrun. apply handle_detect_Return in Hrun as (_ & d & _ & ->).
  repeat split. exists d. split; [apply bind_detector_armed|].
  intros c fuel' Hpos Hfuel.
  rewrite (handle_chunk_armed env fuel' d) by
    (try assumption; apply bind_detector_armed).
  do 2 eexists. split; [reflexivity|].
  rewrite feed_calls, map_map. reflexivity.
Qed.

Lemma rebind_keeps_buffer_witness :
  audio_buffer (bind_detector Demo.d1 "bumblebee"
                  (set_audio_buffer [Byte.x01] Demo.h_bound)) = [Byte.x01].
Proof.
  apply (rebind_keeps_buffer Demo.env 9 "bumblebee" []
           (set_audio_buffer [Byte.x01] Demo.h_bound) Demo.w_bound true
           (bind_detector Demo.d1 "bumblebee" (set_audio_buffer [Byte.x01] Demo.h_bound))
           (set_next_handle 2 Demo.w_bound)).
  vm_compute. reflexivity.
Defined.

(** C6, as stated, fails: one byte buffered under ["porcupine"] is still in
    the buffer after [Detect] rebinds to ["bumblebee"], and the next chunk
    makes it the first byte of the frame given to the new detector
    (handle 1). *)
Lemma rebind_feeds_stale_bytes :
  exists self w self' w' self'' w'',
    handle_events Demo.env 9 [Detect (Some ["porcupine"]); Demo.chunk [Byte.x01]]
      Demo.h0 Demo.w0 = (Return true, self, w)
    /\ audio_buffer self = [Byte.x01]
    /\ handle_event Demo.env 9 (Detect (Some ["bumblebee"])) self w
       = (Return true, self', w')
    /\ detector self' = Some Demo.d1
    /\ audio_buffer self' = [Byte.x01]
    /\ handle_event Demo.env 9 (Demo.chunk [Byte.x00]) self' w'
       = (Return true, self'', w'')
    /\ calls w'' = [(1, [1%Z])].
Proof.
  do 6 eexists.
  split; [vm_compute; reflexivity|].
  split; [reflexivity|].
  split; [vm_compute; reflexivity|].
  split; [reflexivity|].
  split; [reflexivity|].
  split; [vm_compute; reflexivity|].
  reflexivity.
Qed.




(** ** One owner per detector *)

Lemma remove_test_handle (y d : Detector.t) :
  Detector.is_ y d || Detector.eq_ y d = true
  <-> Detector.handle y = Detector.handle d.
Proof.
  unfold Detector.eq_, Detector.is_, Porcupine.is_, Detector.handle.
  destruct (Nat.eqb_spec (Porcupine.handle (Detector.porcupine y))
              (Porcupine.handle (Detector.porcupine d))) as [Heq | Hne]; simpl.
  - split; auto.
  - split; [discriminate | intros H; contradiction].
Qed.

Lemma list_remove_nodup (d : Detector.t) (l : list Detector.t) :
  d ∈ l ->
  NoDup (map Detector.handle l) ->
  NoDup (map Detector.handle (list_remove d l))
  /\ Detector.handle d ∉ map Detector.handle (list_remove d l).
Proof.
  induction l as [|y l IH]; intros Hin Hnd; [inversion Hin|].
  simpl in Hnd. apply NoDup_cons in Hnd as [Hy Hnd]. simpl.
  destruct (Detector.is_ y d || Detector.eq_ y d) eqn:Htest.
  - apply remove_test_handle in Htest. rewrite <- Htest. auto.
  - assert (Hne : Detector.handle y <> Detector.handle d).
    { intros Heq. apply remove_test_handle in Heq. congruence. }
    apply elem_of_cons in Hin as [-> | Hin]; [contradiction|].
    destruct (IH Hin Hnd) as [IH1 IH2]. simpl. split.
    + apply NoDup_cons. split; [|exact IH1].
      intros Hy'. apply Hy. apply list_elem_of_fmap in Hy' as (z & -> & Hz).
      apply list_elem_of_fmap. exists z. split; [reflexivity|].
      exact (list_remove_subseteq d l z Hz).
    + intros Hd. apply elem_of_cons in Hd as [Hd | Hd]; [congruence | contradiction].
Qed.

Lemma idle_set_detector_cache (c : gmap string (list Detector.t)) (w : World) (k : string) :
  idle (set_detector_cache c w) k = default [] (c !! k).
Proof. reflexivity. Qed.

Lemma holds_insert (w : World) (hs : gmap nat PorcupineEventHandler) (i j : nat)
    (self : PorcupineEventHandler) (d : Detector.t) (w0 : World) :
  holds {| world := w; handlers := <[i := self]> hs |} j d ->
  (j = i /\ detector self = Some d)
  \/ (j <> i /\ holds {| world := w0; handlers := hs |} j d).
Proof.
  intros (s & Hs & Hd). simpl in Hs.
  destruct (decide (i = j)) as [->|Hne].
  - rewrite lookup_insert_eq in Hs. inversion Hs; subst. left. auto.
  - rewrite lookup_insert_ne in Hs by exact Hne. right. split; [congruence|].
    exists s. auto.
Qed.

Section Ownership.
Variable env : Env.

Lemma idle_after_hit (w : World) (kw k : string) (l : list Detector.t) (d : Detector.t) :
  detector_cache (state w) !! kw = Some l ->
  idle (set_detector_cache (<[kw := list_remove d l]> (detector_cache (state w))) w) k
  = if decide (kw = k) then list_remove d l else idle w k.
Proof.
  intros Hl. rewrite idle_set_detector_cache.
  destruct (decide (kw = k)) as [->|Hne].
  - rewrite lookup_insert_eq. reflexivity.
  - rewrite lookup_insert_ne by exact Hne. reflexivity.
Qed.

Lemma idle_after_hit_sub (w : World) (kw k : string) (l : list Detector.t)
    (d x : Detector.t) :
  detector_cache (state w) !! kw = Some l ->
  x ∈ idle (set_detector_cache (<[kw := list_remove d l]> (detector_cache (state w))) w) k ->
  x ∈ idle w k.
Proof.
  intros Hl. rewrite (idle_after_hit w kw k l d Hl).
  destruct (decide (kw = k)) as [<-|Hne]; [|auto].
  intros Hx. unfold idle. rewrite Hl. simpl.
  exact (list_remove_subseteq d l x Hx).
Qed.

(** A cache hit moves the detector from its idle list to the handler. *)
Lemma exclusive_hit (sys : System) (i : nat) (self : PorcupineEventHandler)
    (kw : string) (l : list Detector.t) (d : Detector.t) :
  exclusive sys ->
  detector_cache (state (world sys)) !! kw = Some l ->
  d ∈ l ->
  exclusive
    {| world := set_detector_cache
                  (<[kw := list_remove d l]> (detector_cache (state (world sys))))
                  (world sys);
       handlers := <[i := bind_detector d kw self]> (handlers sys) |}.
Proof.
  intros Hex Hl Hin. destruct sys as [w hs]. simpl in *.
  assert (Hidle : idle w kw = l) by (unfold idle; rewrite Hl; reflexivity).
  assert (Hd : d ∈ idle w kw) by (rewrite Hidle; exact Hin).
  destruct (list_remove_nodup d l Hin) as [Hnd Hnot].
  { rewrite <- Hidle. exact (idle_nodup _ Hex kw). }
  constructor; simpl.
  - intros k. rewrite (idle_after_hit w kw k l d Hl).
    destruct (decide (kw = k)); [exact Hnd | exact (idle_nodup _ Hex k)].
  - intros k1 k2 d1 d2 Hne H1 H2.
    apply (idle_disjoint _ Hex k1 k2); [exact Hne | |];
      eapply idle_after_hit_sub; eauto.
  - intros a b da db Hne Ha Hb.
    apply (holds_insert _ _ _ _ _ _ w) in Ha as [[-> Ha] | [Hai Ha]];
      apply (holds_insert _ _ _ _ _ _ w) in Hb as [[-> Hb] | [Hbi Hb]];
      simpl in *.
    + contradiction.
    + injection Ha as <-.
      intros Heq. exact (held_not_idle _ Hex b db kw d Hb Hd (eq_sym Heq)).
    + injection Hb as <-.
      exact (held_not_idle _ Hex a da kw d Ha Hd).
    + exact (held_disjoint _ Hex a b da db Hne Ha Hb).
  - intros a da k x Ha Hx.
    apply (holds_insert _ _ _ _ _ _ w) in Ha as [[-> Ha] | [Hai Ha]]; simpl in *.
    + injection Ha as <-.
      rewrite (idle_after_hit w kw k l d Hl) in Hx.
      destruct (decide (kw = k)) as [<-|Hne].
      * intros Heq. apply Hnot. rewrite Heq.
        apply list_elem_of_fmap. exists x. auto.
      * exact (idle_disjoint _ Hex kw k d x Hne Hd Hx).
    + apply (held_not_idle _ Hex a da k x Ha).
      eapply idle_after_hit_sub; eauto.
  - intros k x Hx. apply (idle_below _ Hex k x).
    eapply idle_after_hit_sub; eauto.
  - intros a da Ha.
    apply (holds_insert _ _ _ _ _ _ w) in Ha as [[-> Ha] | [Hai Ha]]; simpl in *.
    + injection Ha as <-. exact (idle_below _ Hex kw d Hd).
    + exact (held_below _ Hex a da Ha).
Qed.

(** A cache miss gives the handler a detector with a handle never used. *)
Lemma exclusive_fresh (sys : System) (i : nat) (self : PorcupineEventHandler)
    (kw : string) (n : nat) (s : float) :
  exclusive sys ->
  exclusive
    {| world := set_next_handle (S (next_handle (world sys))) (world sys);
       handlers :=
         <[i := bind_detector (Detector.mk (Porcupine.mk (next_handle (world sys)) n) s)
                  kw self]> (handlers sys) |}.
Proof.
  intros Hex. destruct sys as [w hs]. simpl in *.
  constructor; simpl.
  - exact (idle_nodup _ Hex).
  - exact (idle_disjoint _ Hex).
  - intros a b da db Hne Ha Hb.
    apply (holds_insert _ _ _ _ _ _ w) in Ha as [[-> Ha] | [Hai Ha]];
      apply (holds_insert _ _ _ _ _ _ w) in Hb as [[-> Hb] | [Hbi Hb]];
      simpl in *.
    + contradiction.
    + inversion Ha; subst. pose proof (held_below _ Hex b db Hb) as Hlt.
      simpl in *. unfold Detector.handle at 1. simpl. lia.
    + inversion Hb; subst. pose proof (held_below _ Hex a da Ha) as Hlt.
      simpl in *. unfold Detector.handle at 2. simpl. lia.
    + exact (held_disjoint _ Hex a b da db Hne Ha Hb).
  - intros a da k x Ha Hx.
    apply (holds_insert _ _ _ _ _ _ w) in Ha as [[-> Ha] | [Hai Ha]]; simpl in *.
    + inversion Ha; subst. pose proof (idle_below _ Hex k x Hx) as Hlt.
      simpl in *. unfold Detector.handle at 1. simpl. lia.
    + exact (held_not_idle _ Hex a da k x Ha Hx).
  - intros k x Hx. pose proof (idle_below _ Hex k x Hx) as Hlt. simpl in *. lia.
  - intros a da Ha.
    apply (holds_insert _ _ _ _ _ _ w) in Ha as [[-> Ha] | [Hai Ha]]; simpl in *.
    + inversion Ha; subst. unfold Detector.handle. simpl. lia.
    + pose proof (held_below _ Hex a da Ha) as Hlt. simpl in *. lia.
Qed.

Lemma idle_after_release (w : World) (kn k : string) (d x : Detector.t) :
  x ∈ idle (set_detector_cache
              (<[kn := idle w kn ++ [d]]> (detector_cache (state w))) w) k ->
  x ∈ idle w k \/ (k = kn /\ x = d).
Proof.
  rewrite idle_set_detector_cache.
  destruct (decide (kn = k)) as [->|Hne].
  - rewrite lookup_insert_eq. simpl. intros Hx.
    apply elem_of_app in Hx as [Hx | Hx]; [left; exact Hx|].
    apply list_elem_of_singleton in Hx. right. auto.
  - rewrite lookup_insert_ne by exact Hne. intros Hx. left. exact Hx.
Qed.

(** [disconnect] moves the detector from the handler to the idle list. *)
Lemma exclusive_release (sys : System) (i : nat) (self : PorcupineEventHandler)
    (d : Detector.t) :
  exclusive sys ->
  handlers sys !! i = Some self ->
  detector self = Some d ->
  exclusive
    {| world := set_detector_cache
                  (<[keyword_name self := idle (world sys) (keyword_name self) ++ [d]]>
                     (detector_cache (state (world sys)))) (world sys);
       handlers := <[i := set_detector None self]> (handlers sys) |}.
Proof.
  intros Hex Hi Hd. destruct sys as [w hs]. simpl in *.
  assert (Hheld : holds {| world := w; handlers := hs |} i d)
    by (exists self; auto).
  set (kn := keyword_name self) in *.
  constructor; simpl.
  - intros k. rewrite idle_set_detector_cache.
    destruct (decide (kn = k)) as [<-|Hne].
    + rewrite lookup_insert_eq. simpl. rewrite map_app. simpl.
      apply NoDup_app. split; [exact (idle_nodup _ Hex kn)|]. split.
      * intros h Hh Hh'. apply list_elem_of_singleton in Hh'. subst h.
        apply list_elem_of_fmap in Hh as (x & Heq & Hx).
        exact (held_not_idle _ Hex i d kn x Hheld Hx Heq).
      * apply NoDup_singleton.
    + rewrite lookup_insert_ne by exact Hne. exact (idle_nodup _ Hex k).
  - intros k1 k2 d1 d2 Hne H1 H2.
    apply idle_after_release in H1 as [H1 | [-> ->]];
      apply idle_after_release in H2 as [H2 | [-> ->]].
    + exact (idle_disjoint _ Hex k1 k2 d1 d2 Hne H1 H2).
    + intros Heq. exact (held_not_idle _ Hex i d k1 d1 Hheld H1 (eq_sym Heq)).
    + exact (held_not_idle _ Hex i d k2 d2 Hheld H2).
    + contradiction.
  - intros a b da db Hne Ha Hb.
    apply (holds_insert _ _ _ _ _ _ w) in Ha as [[-> Ha] | [Hai Ha]];
      [discriminate|].
    apply (holds_insert _ _ _ _ _ _ w) in Hb as [[-> Hb] | [Hbi Hb]];
      [discriminate|].
    exact (held_disjoint _ Hex a b da db Hne Ha Hb).
  - intros a da k x Ha Hx.
    apply (holds_insert _ _ _ _ _ _ w) in Ha as [[-> Ha] | [Hai Ha]];
      [discriminate|].
    apply idle_after_release in Hx as [Hx | [-> ->]].
    + exact (held_not_idle _ Hex a da k x Ha Hx).
    + exact (held_disjoint _ Hex a i da d Hai Ha Hheld).
  - intros k x Hx. apply idle_after_release in Hx as [Hx | [-> ->]].
    + exact (idle_below _ Hex k x Hx).
    + exact (held_below _ Hex i d Hheld).
  - intros a da Ha.
    apply (holds_insert _ _ _ _ _ _ w) in Ha as [[-> Ha] | [Hai Ha]];
      [discriminate|].
    exact (held_below _ Hex a da Ha).
Qed.

(** Every operation keeps the owners apart. *)
Lemma exclusive_step (op : Op) (sys : System) :
  exclusive sys -> exclusive (step env op sys).
Proof.
  intros Hex. destruct op as [i kw | i]; simpl.
  - destruct (handlers sys !! i) as [self|] eqn:Hi; [|exact Hex].
    unfold _load_keyword.
    destruct (get_porcupine env kw _ _ (world sys)) as [[d|e|] w'] eqn:Hget.
    + apply get_porcupine_Return in Hget
        as [(l & Hl & Hin & _ & ->) | (_ & kwd & lib & n & _ & _ & _ & -> & ->)].
      * exact (exclusive_hit sys i self kw l d Hex Hl Hin).
      * exact (exclusive_fresh sys i self kw n _ Hex).
    + apply get_porcupine_Raise in Hget as ->.
      rewrite insert_id by exact Hi. destruct sys; exact Hex.
    + exfalso. exact (get_porcupine_fuel env _ _ _ _ _ Hget).
  - destruct (handlers sys !! i) as [self|] eqn:Hi; [|exact Hex].
    unfold disconnect. destruct (detector self) as [d|] eqn:Hd.
    + exact (exclusive_release sys i self d Hex Hi Hd).
    + rewrite insert_id by exact Hi. destruct sys; exact Hex.
Qed.


End Ownership.

Section Traces.
Variable env : Env.


Lemma exclusive_initial (sys : System) :
  detector_cache (state (world sys)) = ∅ ->
  (forall i self, handlers sys !! i = Some self -> detector self = None) ->
  exclusive sys.
Proof.
  intros Hc Hh.
  assert (Hidle : forall k, idle (world sys) k = []).
  { intros k. unfold idle. rewrite Hc, lookup_empty. reflexivity. }
  assert (Hno : forall i d, ~ holds sys i d).
  { intros i d (self & Hi & Hd). rewrite (Hh i self Hi) in Hd. discriminate. }
  constructor.
  - intros k. rewrite Hidle. apply NoDup_nil_2.
  - intros k1 k2 d1 d2 _ H1. rewrite Hidle in H1. inversion H1.
  - intros i j di dj _ Hi. destruct (Hno i di Hi).
  - intros i di k d Hi. destruct (Hno i di Hi).
  - intros k d H1. rewrite Hidle in H1. inversion H1.
  - intros i d Hi. destruct (Hno i d Hi).
Qed.






End Traces.

Section Conservation.
Variable env : Env.






End Conservation.



(** The release part at work: handler 0 acquires and disconnects; its
    detector is then idle under ["porcupine"]. *)
Example release_puts_detector_idle :
  idle (world (run Demo.env [Acquire 0 "porcupine"; Release 0] Demo.sys0)) "porcupine"
  = [Demo.d0]
  /\ forall j dj,
       holds (run Demo.env [Acquire 0 "porcupine"; Release 0] Demo.sys0) j dj -> False.
Proof.
  split; [reflexivity|].
  intros j dj (self & Hs & Hd).
  assert (E : handlers (run Demo.env [Acquire 0 "porcupine"; Release 0] Demo.sys0)
              = <[0 := set_detector None
                         (bind_detector Demo.d0 "porcupine"
                            (new_handler (Info []) Demo.args 7))]>
                  (<[0 := bind_detector Demo.d0 "porcupine"
                            (new_handler (Info []) Demo.args 7)]>
                     (handlers Demo.sys0))) by reflexivity.
  rewrite E in Hs.
  apply lookup_insert_Some in Hs as [[_ <-] | [Hne Hs]]; [discriminate|].
  apply lookup_insert_Some in Hs as [[Heq _] | [_ Hs]]; [congruence|].
  simpl in Hs.
  apply lookup_insert_Some in Hs as [[Heq _] | [_ Hs]]; [congruence|].
  apply lookup_singleton_Some in Hs as [_ <-]. discriminate.
Qed.


(** A released detector is handed out again: handler 0 acquires and
    disconnects, then handler 1 gets the same detector from the cache. *)
Example reacquire_after_release :
  acquired Demo.env (Acquire 0 "porcupine") Demo.sys0 = Some Demo.d0
  /\ acquired Demo.env (Acquire 1 "porcupine")
       (run Demo.env [Acquire 0 "porcupine"; Release 0] Demo.sys0) = Some Demo.d0
  /\ acquired Demo.env (Acquire 1 "porcupine")
       (run Demo.env [Acquire 0 "porcupine"] Demo.sys0)
     = Some (Detector.mk (Porcupine.mk 1 2) 0.5%float).
Proof. repeat split; vm_compute; reflexivity. Qed.

(** ** The [detected] flag *)

Section Detected.
Variable env : Env.

Lemma while_frames_detected (fuel : nat) d ts : forall self w o self' w',
  while_frames env fuel d ts self w = (o, self', w') ->
  detected self' = detected self.
Proof.
  induction fuel as [|fuel IH]; intros self w o self' w'; simpl.
  - intros E. inversion E; subst. reflexivity.
  - destruct (Nat.leb _ _).
    + destruct (unpack_from _ _ _) as [u|];
        [|intros E; inversion E; subst; reflexivity].
      unfold bind at 1. unfold process at 1. unfold bind at 1.
      destruct (0 <=? _)%Z; unfold write_event, ret, bind, consume_frame; simpl;
        match goal with
        | |- context [while_frames env fuel d ts ?s ?x] =>
            specialize (IH s x);
            destruct (while_frames env fuel d ts s x) as [[o1 s1] x1]
        end;
        specialize (IH o1 s1 x1 eq_refl); simpl in IH;
        destruct o1; intros E; inversion E; subst; exact IH.
    + intros E. inversion E; subst. reflexivity.
Qed.

(** No event sets the flag: a handler whose flag is down keeps it down. *)
Lemma handle_event_detected (fuel : nat) (e : Event) self w o self' w' :
  handle_event env fuel e self w = (o, self', w') ->
  detected self = false -> detected self' = false.
Proof.
  intros Hrun Hflag.
  destruct e as [|[[|kw kws]|]|r wd ch|c| |ty];
    unfold handle_event, bind, write_event, ret in Hrun.
  - inversion Hrun; subst. exact Hflag.
  - inversion Hrun; subst. exact Hflag.
  - unfold _load_keyword in Hrun.
    destruct (get_porcupine env kw _ _ w) as [[d|e|] w1];
      inversion Hrun; subst; exact Hflag.
  - inversion Hrun; subst. exact Hflag.
  - inversion Hrun; subst. reflexivity.
  - assert (Hload : forall o1 s1 w1,
               match detector self with
               | Some _ => (Return tt, self, w)
               | None => _load_keyword env DEFAULT_KEYWORD self w
               end = (o1, s1, w1) -> detected s1 = false).
    { intros o1 s1 w1. destruct (detector self).
      - intros E. inversion E; subst. exact Hflag.
      - unfold _load_keyword.
        destruct (get_porcupine env DEFAULT_KEYWORD _ _ w) as [[d|e|] w2];
          intros E; inversion E; subst; exact Hflag. }
    destruct (match detector self with
              | Some _ => _
              | None => _
              end) as [[o1 s1] w1].
    specialize (Hload o1 s1 w1 eq_refl).
    destruct o1 as [[]|e|]; try (inversion Hrun; subst; exact Hload).
    destruct (detector s1) as [d|]; [|inversion Hrun; subst; exact Hload].
    destruct (while_frames env fuel d _ _ w1) as [[o2 s2] w2] eqn:Hloop.
    apply while_frames_detected in Hloop. simpl in Hloop.
    destruct o2; inversion Hrun; subst; congruence.
  - rewrite Hflag in Hrun. inversion Hrun; subst. exact Hflag.
  - inversion Hrun; subst. exact Hflag.
Qed.

(** With the flag down, [AudioStop] writes [NotDetected] and ends the
    session. *)
Lemma audio_stop_not_detected (fuel : nat) self w :
  detected self = false ->
  handle_event env fuel AudioStop self w
  = (Return false, self, log_written (client_id self) NotDetected w).
Proof. intros H. unfold handle_event, bind, write_event, ret. rewrite H. reflexivity. Qed.

End Detected.

(** C1, evaluated: [AudioStart], then a chunk whose frame matches, then
    [AudioStop]. The handler writes a [Detection] and, the flag [detected]
    being never set, a [NotDetected] as well. *)
Theorem not_detected_after_detection :
  exists self' w',
    handle_events Demo.env 9
      [AudioStart 16000 2 1;
       Demo.chunk [Byte.x01; Byte.x00; Byte.x00; Byte.x00];
       AudioStop] Demo.h0 Demo.w0
    = (Return false, self', w')
    /\ written w' = [(7, Detection "porcupine" (Some 0%Z)); (7, NotDetected)]
    /\ detected self' = false.
Proof.
  do 2 eexists. split; [vm_compute; reflexivity|]. split; reflexivity.
Qed.

(** ** More on the cache: order, failures, return of a detector *)

Lemma find_first_match (s : float) (l1 l2 : list Detector.t) (d : Detector.t) :
  (forall x, x ∈ l1 -> PrimFloat.eqb (Detector.sensitivity x) s = false) ->
  PrimFloat.eqb (Detector.sensitivity d) s = true ->
  find (fun x => PrimFloat.eqb (Detector.sensitivity x) s) (l1 ++ d :: l2) = Some d.
Proof.
  intros Hno Hd. induction l1 as [|y l1 IH]; simpl.
  - rewrite Hd. reflexivity.
  - rewrite (Hno y) by apply list_elem_of_here.
    apply IH. intros x Hx. apply Hno, list_elem_of_further, Hx.
Qed.

Lemma list_remove_first (l1 l2 : list Detector.t) (d : Detector.t) :
  (forall x, x ∈ l1 -> Detector.handle x <> Detector.handle d) ->
  list_remove d (l1 ++ d :: l2) = l1 ++ l2.
Proof.
  intros Hno. induction l1 as [|y l1 IH]; simpl.
  - assert (H : Detector.is_ d d || Detector.eq_ d d = true)
      by (apply remove_test_handle; reflexivity).
    rewrite H. reflexivity.
  - destruct (Detector.is_ y d || Detector.eq_ y d) eqn:Htest.
    + apply remove_test_handle in Htest.
      destruct (Hno y (list_elem_of_here _ _) Htest).
    + rewrite IH; [reflexivity|].
      intros x Hx. apply Hno, list_elem_of_further, Hx.
Qed.

(** X1. [get_porcupine] takes the first idle detector of the keyword whose
    sensitivity equals the requested one, and the idle list keeps its other
    detectors in their order. For such a hit neither the access key, nor the
    library paths, nor [pvporcupine.create] play a part. *)
Theorem get_porcupine_first_match (env : Env) (kw : string) (s : float)
    (key : string) (w : World) (kwd : Keyword.t)
    (l1 l2 : list Detector.t) (d : Detector.t) :
  keywords (state w) !! kw = Some kwd ->
  detector_cache (state w) !! kw = Some (l1 ++ d :: l2) ->
  (forall x, x ∈ l1 ->
     PrimFloat.eqb (Detector.sensitivity x) s = false
     /\ Detector.handle x <> Detector.handle d) ->
  PrimFloat.eqb (Detector.sensitivity d) s = true ->
  get_porcupine env kw s key w
  = (Return d,
     set_detector_cache (<[kw := l1 ++ l2]> (detector_cache (state w))) w).
Proof.
  intros Hkw Hc Hno Hd. unfold get_porcupine, cache_take. rewrite Hkw, Hc.
  assert (Hshape : exists y l, l1 ++ d :: l2 = y :: l)
    by (destruct l1; simpl; eauto).
  destruct Hshape as (y & l & Hshape). rewrite Hshape.
  rewrite <- Hshape.
  rewrite (find_first_match s l1 l2 d); [|intros x Hx; apply Hno, Hx|exact Hd].
  rewrite list_remove_first; [reflexivity|].
  intros x Hx. apply Hno, Hx.
Qed.

Lemma get_porcupine_first_match_witness :
  get_porcupine Demo.env "porcupine" 0.5%float "" Demo.w_cached
  = (Return (Detector.mk (Porcupine.mk 1 2) 0.5%float),
     set_detector_cache
       (<["porcupine" := [Detector.mk (Porcupine.mk 0 2) 0.25%float] ++ []]>
          (detector_cache (state Demo.w_cached))) Demo.w_cached).
Proof.
  apply (get_porcupine_first_match Demo.env "porcupine" 0.5%float "" Demo.w_cached
           (Keyword.mk "en" "porcupine" "porcupine.ppn")
           [Detector.mk (Porcupine.mk 0 2) 0.25%float] []
           (Detector.mk (Porcupine.mk 1 2) 0.5%float)).
  - reflexivity.
  - reflexivity.
  - intros x Hx. apply list_elem_of_singleton in Hx as ->.
    split; [reflexivity | discriminate].
  - reflexivity.
Defined.

(** X2. [get_porcupine] fails in three ways only, and never changes the
    world when it fails: [ValueError] for a keyword that is not in the
    mapping; and, for a known keyword with no idle detector of the requested
    sensitivity, [KeyError] when there is no library for the keyword's
    language, or the exception of [pvporcupine.create] when the build
    fails. *)
Theorem get_porcupine_failures (env : Env) (kw : string) (s : float) (key : string)
    (w : World) (e : Error) (w' : World) :
  get_porcupine env kw s key w = (Raise e, w') ->
  w' = w
  /\ ((keywords (state w) !! kw = None
       /\ e = ValueError ("No keyword " ++ kw)%string)
      \/ exists kwd,
           keywords (state w) !! kw = Some kwd
           /\ (forall x, x ∈ idle w kw ->
                  PrimFloat.eqb (Detector.sensitivity x) s = false)
           /\ ((pv_lib_paths (state w) !! Keyword.language kwd = None
                /\ e = KeyError (Keyword.language kwd))
               \/ exists lib,
                    pv_lib_paths (state w) !! Keyword.language kwd = Some lib
                    /\ pv_create env lib (Keyword.model_path kwd) s key = None
                    /\ e = PorcupineError)).
Proof.
  unfold get_porcupine.
  destruct (keywords (state w) !! kw) as [kwd|] eqn:Hkw.
  - destruct (cache_take kw s _) as [[d1 c1]|] eqn:Htake; [discriminate|].
    pose proof (cache_take_None kw s _ Htake) as Hno.
    destruct (pv_lib_paths (state w) !! _) as [lib|] eqn:Hlib.
    + destruct (pv_create env lib _ s key) as [n|] eqn:Hc; [discriminate|].
      intros E. injection E as <- <-. split; [reflexivity|]. right.
      exists kwd. split; [reflexivity|]. split; [exact Hno|]. right.
      exists lib. auto.
    + intros E. injection E as <- <-. split; [reflexivity|]. right.
      exists kwd. split; [reflexivity|]. split; [exact Hno|]. left. auto.
  - intros E. injection E as <- <-. split; [reflexivity|]. left. auto.
Qed.

Lemma get_porcupine_failures_witness :
  Demo.w_cached = Demo.w_cached
  /\ get_porcupine Demo.env "porcupine" 0.75%float "" Demo.w_cached
     = (Raise PorcupineError, Demo.w_cached).
Proof.
  assert (H : get_porcupine Demo.env "porcupine" 0.75%float "" Demo.w_cached
              = (Raise PorcupineError, Demo.w_cached)) by reflexivity.
  split; [|exact H].
  exact (proj1 (get_porcupine_failures Demo.env "porcupine" 0.75%float ""
                  Demo.w_cached PorcupineError Demo.w_cached H)).
Defined.

(** X3. A [Detect] or an [AudioChunk] on an unbound handler whose
    [get_porcupine] call raises passes the exception on and changes neither
    the handler (a detector bound before stays bound) nor the world. *)
Theorem failed_bind_changes_nothing (env : Env) (fuel : nat) (kw : string)
    (self : PorcupineEventHandler) (w : World) (e : Error) (w' : World) :
  get_porcupine env kw (sensitivity (cli_args self))
    (access_key (cli_args self)) w = (Raise e, w') ->
  (forall kws,
      handle_event env fuel (Detect (Some (kw :: kws))) self w = (Raise e, self, w))
  /\ (forall c,
        kw = DEFAULT_KEYWORD -> detector self = None ->
        handle_event env fuel (AudioChunk c) self w = (Raise e, self, w)).
Proof.
  intros Hget. pose proof (get_porcupine_Raise env _ _ _ _ _ _ Hget) as ->.
  split.
  - intros kws. unfold handle_event, bind, _load_keyword. rewrite Hget. reflexivity.
  - intros c -> Hnone. unfold handle_event, bind, _load_keyword.
    rewrite Hnone, Hget. reflexivity.
Qed.

Lemma failed_bind_changes_nothing_witness :
  handle_event Demo.env 9 (Detect (Some ["alexa"])) Demo.h_bound Demo.w_bound
  = (Raise (ValueError "No keyword alexa"), Demo.h_bound, Demo.w_bound).
Proof.
  apply (failed_bind_changes_nothing Demo.env 9 "alexa" Demo.h_bound Demo.w_bound
           (ValueError "No keyword alexa") Demo.w_bound).
  reflexivity.
Defined.

(** X4. [disconnect] releases once: on an unbound handler it changes
    nothing; on a bound one it appends the detector to the end of the idle
    list of the handler's keyword and unbinds; and a second [disconnect]
    changes nothing more. *)
Theorem disconnect_once (self : PorcupineEventHandler) (w : World) :
  (detector self = None -> disconnect self w = (self, w))
  /\ (forall d, detector self = Some d ->
        detector (fst (disconnect self w)) = None
        /\ idle (snd (disconnect self w)) (keyword_name self)
           = idle w (keyword_name self) ++ [d]
        /\ (forall k, k <> keyword_name self ->
              idle (snd (disconnect self w)) k = idle w k))
  /\ disconnect (fst (disconnect self w)) (snd (disconnect self w))
     = disconnect self w.
Proof.
  unfold disconnect. split; [|split].
  - intros ->. reflexivity.
  - intros d ->. simpl. split; [reflexivity|]. split.
    + rewrite idle_set_detector_cache, lookup_insert_eq. reflexivity.
    + intros k Hne. rewrite idle_set_detector_cache, lookup_insert_ne by auto.
      reflexivity.
  - destruct (detector self) as [d|] eqn:Hd; simpl.
    + reflexivity.
    + rewrite Hd. reflexivity.
Qed.

(** X5. A detector given back by [disconnect] is handed out again: when the
    keyword is known, no detector idle before has the sensitivity of [d] or
    its handle, and that sensitivity equals itself (it is not NaN), the next
    [get_porcupine] for the handler's keyword and sensitivity returns [d]
    itself, builds nothing, and the idle list is as before the
    [disconnect]. *)
Theorem disconnect_then_acquire (env : Env) (key : string)
    (self : PorcupineEventHandler) (w : World) (d : Detector.t) :
  detector self = Some d ->
  is_Some (keywords (state w) !! keyword_name self) ->
  (forall x, x ∈ idle w (keyword_name self) ->
     PrimFloat.eqb (Detector.sensitivity x) (Detector.sensitivity d) = false
     /\ Detector.handle x <> Detector.handle d) ->
  PrimFloat.eqb (Detector.sensitivity d) (Detector.sensitivity d) = true ->
  exists w2,
    get_porcupine env (keyword_name self) (Detector.sensitivity d) key
      (snd (disconnect self w)) = (Return d, w2)
    /\ idle w2 (keyword_name self) = idle w (keyword_name self)
    /\ next_handle w2 = next_handle w.
Proof.
  intros Hd [kwd Hkw] Hno Hself. unfold disconnect. rewrite Hd. simpl.
  unfold get_porcupine, cache_take. simpl.
  rewrite Hkw, lookup_insert_eq.
  fold (idle w (keyword_name self)).
  set (l := idle w (keyword_name self)) in *.
  assert (Hshape : exists y l', l ++ [d] = y :: l')
    by (destruct l; simpl; eauto).
  destruct Hshape as (y & l' & Hshape). rewrite Hshape. rewrite <- Hshape.
  rewrite (find_first_match _ l [] d); [|intros x Hx; apply Hno, Hx|exact Hself].
  rewrite list_remove_first by (intros x Hx; apply Hno, Hx).
  eexists. split; [reflexivity|]. split; [|reflexivity].
  rewrite idle_set_detector_cache, lookup_insert_eq. simpl.
  apply app_nil_r.
Qed.

Lemma disconnect_then_acquire_witness :
  exists w2,
    get_porcupine Demo.env "porcupine" 0.5%float ""
      (snd (disconnect Demo.h_bound Demo.w_bound)) = (Return Demo.d0, w2)
    /\ idle w2 "porcupine" = []
    /\ next_handle w2 = 1.
Proof.
  apply (disconnect_then_acquire Demo.env "" Demo.h_bound Demo.w_bound Demo.d0).
  - reflexivity.
  - eexists. reflexivity.
  - intros x Hx. inversion Hx.
  - reflexivity.
Defined.

(** ** More on audio chunks *)

Section ChunksMore.
Variable env : Env.

Lemma history_log_call (h : nat) (f : list Z) (w : World) :
  history h (log_call h f w) = history h w ++ [f].
Proof.
  unfold history. simpl. rewrite List.filter_app, map_app. simpl.
  rewrite Nat.eqb_refl. reflexivity.
Qed.

Lemma feed_written d kw ts id fs : forall w,
  written (feed env d kw ts id fs w)
  = written w
    ++ map (fun _ => (id, Detection kw ts))
         (List.filter (fun z => (0 <=? z)%Z)
            (verdicts env (Detector.handle d) (history (Detector.handle d) w) fs)).
Proof.
  induction fs as [|f fs IH]; intros w; simpl.
  - rewrite app_nil_r. reflexivity.
  - rewrite IH. destruct (0 <=? _)%Z; simpl.
    + change (history (Detector.handle d)
                (log_written id (Detection kw ts) (log_call (Detector.handle d) f w)))
        with (history (Detector.handle d) (log_call (Detector.handle d) f w)).
      rewrite history_log_call, <- app_assoc. reflexivity.
    + rewrite history_log_call. reflexivity.
Qed.

Lemma int16_range (le : bool) (b0 b1 : Byte.byte) : is_int16 (int16 le b0 b1).
Proof.
  unfold is_int16, int16.
  pose proof (Byte.to_N_bounded b0). pose proof (Byte.to_N_bounded b1).
  destruct le; cbv zeta; destruct (_ <? 32768)%Z eqn:Hlt;
    try apply Z.ltb_lt in Hlt; try apply Z.ltb_ge in Hlt; lia.
Qed.

Lemma samples_int16 (le : bool) (n : nat) : forall b,
  length b = n * 2 -> Forall is_int16 (samples le b).
Proof.
  induction n as [|n IH]; intros b Hlen.
  - destruct b; [constructor | discriminate].
  - destruct b as [|b0 [|b1 b]]; simpl in Hlen; try lia.
    simpl. constructor; [apply int16_range | apply IH; lia].
Qed.

Lemma while_frames_footprint (fuel : nat) d ts : forall self w o self' w',
  while_frames env fuel d ts self w = (o, self', w') ->
  detector self' = detector self /\ state w' = state w
  /\ next_handle w' = next_handle w.
Proof.
  induction fuel as [|fuel IH]; intros self w o self' w'; simpl.
  - intros E. inversion E; subst. auto.
  - destruct (Nat.leb _ _); [|intros E; inversion E; subst; auto].
    destruct (unpack_from _ _ _) as [u|]; [|intros E; inversion E; subst; auto].
    unfold bind at 1. unfold process at 1. unfold bind at 1.
    destruct (0 <=? _)%Z; unfold write_event, ret, bind, consume_frame; simpl;
      match goal with
      | |- context [while_frames env fuel d ts ?s ?x] =>
          specialize (IH s x);
          destruct (while_frames env fuel d ts s x) as [[o1 s1] x1]
      end;
      specialize (IH o1 s1 x1 eq_refl); simpl in IH;
      destruct o1; intros E; inversion E; subst; exact IH.
Qed.

End ChunksMore.

(** X6. With a detector whose frame length is 0 bound, an [AudioChunk] event
    never returns: the loop condition [len(buffer) >= 0] always holds and
    nothing is consumed, so the handler is out of fuel whatever the fuel. *)
Theorem zero_frame_length_never_returns (env : Env) (fuel : nat) (d : Detector.t)
    (c : AudioChunk.t) (self : PorcupineEventHandler) (w : World) :
  armed d self ->
  Porcupine.frame_length (Detector.porcupine d) = 0 ->
  fst (fst (handle_event env fuel (AudioChunk c) self w)) = OutOfFuel.
Proof.
  intros (Hd & Hfmt & Hbpc) Hzero. rewrite Hzero in Hfmt, Hbpc. simpl in Hfmt, Hbpc.
  unfold handle_event, bind. rewrite Hd. cbn beta iota. rewrite Hd. cbn zeta.
  pose proof (while_frames_zero env fuel d
                (AudioChunk.timestamp (convert env c))
                (set_audio_buffer
                   (audio_buffer self ++ AudioChunk.audio (convert env c)) self)
                w Hfmt Hbpc) as Hloop.
  destruct (while_frames _ _ _ _ _ _) as [[[[]|e|] s1] w1]; simpl in *;
    try discriminate; reflexivity.
Qed.

Lemma zero_frame_length_never_returns_witness :
  fst (fst (handle_event Demo.env 50 (Demo.chunk [Byte.x01])
              (bind_detector (Detector.mk (Porcupine.mk 0 0) 0.5%float) "porcupine"
                 Demo.h0) Demo.w_bound)) = OutOfFuel.
Proof.
  apply (zero_frame_length_never_returns Demo.env 50
           (Detector.mk (Porcupine.mk 0 0) 0.5%float) (Demo.pcm [Byte.x01])).
  - apply bind_detector_armed.
  - reflexivity.
Defined.

(** X7. An [AudioChunk] event on a bound handler writes one [Detection] for
    every frame to which [process] answers a non-negative index, none being
    held back after the first, and nothing else; each carries the handler's
    keyword name and the timestamp of the converted chunk. *)
Theorem detection_per_matching_frame (env : Env) (fuel : nat) (d : Detector.t)
    (c : AudioChunk.t) (self : PorcupineEventHandler) (w : World) :
  armed d self ->
  0 < Porcupine.frame_length (Detector.porcupine d) ->
  length (audio_buffer self ++ AudioChunk.audio (convert env c)) < fuel ->
  exists self' w',
    handle_event env fuel (AudioChunk c) self w = (Return true, self', w')
    /\ written w'
       = written w
         ++ map (fun _ => (client_id self,
                           Detection (keyword_name self)
                             (AudioChunk.timestamp (convert env c))))
              (List.filter (fun z => (0 <=? z)%Z)
                 (verdicts env (Detector.handle d) (history (Detector.handle d) w)
                    (map (samples (little_endian env))
                       (frames (bytes_per_chunk self)
                          (audio_buffer self ++ AudioChunk.audio (convert env c)))))).
Proof.
  intros Harmed Hpos Hfuel.
  rewrite (handle_chunk_armed env fuel d) by assumption.
  do 2 eexists. split; [reflexivity|]. apply feed_written.
Qed.

Lemma detection_per_matching_frame_witness :
  exists self' w',
    handle_event Demo.env 9
      (Demo.chunk [Byte.x01; Byte.x00; Byte.x00; Byte.x00;
                   Byte.x01; Byte.x00; Byte.x00; Byte.x00])
      Demo.h_bound Demo.w_bound = (Return true, self', w')
    /\ written w' = [(7, Detection "porcupine" (Some 0%Z));
                     (7, Detection "porcupine" (Some 0%Z))].
Proof.
  apply (detection_per_matching_frame Demo.env 9 Demo.d0
           (Demo.pcm [Byte.x01; Byte.x00; Byte.x00; Byte.x00;
                      Byte.x01; Byte.x00; Byte.x00; Byte.x00])
           Demo.h_bound Demo.w_bound).
  - apply bind_detector_armed.
  - simpl. lia.
  - simpl. lia.
Defined.

(** X8. Every frame an [AudioChunk] event hands to [process] goes to the
    bound detector, has exactly [frame_length] samples, and each sample is a
    signed 16-bit value. *)
Theorem frames_fit_detector (env : Env) (fuel : nat) (d : Detector.t)
    (c : AudioChunk.t) (self : PorcupineEventHandler) (w : World) :
  armed d self ->
  0 < Porcupine.frame_length (Detector.porcupine d) ->
  length (audio_buffer self ++ AudioChunk.audio (convert env c)) < fuel ->
  exists self' w' new,
    handle_event env fuel (AudioChunk c) self w = (Return true, self', w')
    /\ calls w' = calls w ++ new
    /\ Forall (fun call =>
                 fst call = Detector.handle d
                 /\ length (snd call) = Porcupine.frame_length (Detector.porcupine d)
                 /\ Forall is_int16 (snd call)) new.
Proof.
  intros Harmed Hpos Hfuel.
  rewrite (handle_chunk_armed env fuel d) by assumption.
  destruct Harmed as (_ & _ & Hbpc). rewrite Hbpc.
  set (n := Porcupine.frame_length (Detector.porcupine d)) in *.
  do 3 eexists. split; [reflexivity|]. split.
  - rewrite feed_calls, map_map. reflexivity.
  - apply Forall_forall. intros call Hin.
    apply list_elem_of_fmap in Hin as (f & -> & Hf).
    assert (Hn : 0 < n * 2) by lia.
    pose proof (frames_all_full (n * 2) Hn _ f Hf) as Hlen.
    simpl. split; [reflexivity|]. split.
    + apply samples_length, Hlen.
    + apply (samples_int16 _ n), Hlen.
Qed.

Lemma frames_fit_detector_witness :
  exists self' w' new,
    handle_event Demo.env 9
      (Demo.chunk [Byte.xff; Byte.xff; Byte.x00; Byte.x80; Byte.x05])
      Demo.h_bound Demo.w_bound = (Return true, self', w')
    /\ calls w' = calls Demo.w_bound ++ new
    /\ Forall (fun call =>
                 fst call = 0 /\ length (snd call) = 2
                 /\ Forall is_int16 (snd call)) new.
Proof.
  apply (frames_fit_detector Demo.env 9 Demo.d0
           (Demo.pcm [Byte.xff; Byte.xff; Byte.x00; Byte.x80; Byte.x05])
           Demo.h_bound Demo.w_bound).
  - apply bind_detector_armed.
  - simpl. lia.
  - simpl. lia.
Defined.

(** ** More on events *)

Section EventsMore.
Variable env : Env.

Lemma handle_event_footprint (fuel : nat) (e : Event) self w o self' w' :
  handle_event env fuel e self w = (o, self', w') ->
  (detector self' = detector self /\ state w' = state w
   /\ next_handle w' = next_handle w)
  \/ exists kw o1 s1 w1,
       _load_keyword env kw self w = (o1, s1, w1)
       /\ detector self' = detector s1 /\ state w' = state w1
       /\ next_handle w' = next_handle w1.
Proof.
  intros Hrun.
  destruct e as [|[[|kw kws]|]|r wd ch|c| |ty];
    unfold handle_event, bind, write_event, ret in Hrun.
  - inversion Hrun; subst. left. auto.
  - inversion Hrun; subst. left. auto.
  - right. exists kw.
    destruct (_load_keyword env kw self w) as [[o1 s1] w1].
    exists o1, s1, w1. split; [reflexivity|].
    destruct o1 as [[]|e|]; inversion Hrun; subst; auto.
  - inversion Hrun; subst. left. auto.
  - inversion Hrun; subst. left. auto.
  - destruct (detector self) as [d0|] eqn:Hd.
    + left. rewrite Hd in Hrun.
      destruct (while_frames env fuel d0 _ _ w) as [[o2 s2] w2] eqn:Hloop.
      apply while_frames_footprint in Hloop as (H1 & H2 & H3). simpl in H1.
      destruct o2; inversion Hrun; subst; rewrite Hd in *; auto.
    + right. exists DEFAULT_KEYWORD.
      destruct (_load_keyword env DEFAULT_KEYWORD self w) as [[o1 s1] w1].
      exists o1, s1, w1. split; [reflexivity|].
      destruct o1 as [[]|e|]; try (inversion Hrun; subst; auto; fail).
      destruct (detector s1) as [d1|] eqn:Hd1; [|inversion Hrun; subst; auto].
      destruct (while_frames env fuel d1 _ _ w1) as [[o2 s2] w2] eqn:Hloop.
      apply while_frames_footprint in Hloop as (H1 & H2 & H3). simpl in H1.
      destruct o2; inversion Hrun; subst; rewrite Hd1 in *; auto.
  - destruct (detected self); inversion Hrun; subst; left; auto.
  - inversion Hrun; subst. left. auto.
Qed.

Lemma exclusive_ext (sys sys' : System) :
  (forall k, idle (world sys') k = idle (world sys) k) ->
  next_handle (world sys') = next_handle (world sys) ->
  (forall i d, holds sys' i d -> holds sys i d) ->
  exclusive sys -> exclusive sys'.
Proof.
  intros Hidle Hnh Hholds Hex. constructor.
  - intros k. rewrite Hidle. exact (idle_nodup _ Hex k).
  - intros k1 k2 d1 d2 Hne. rewrite !Hidle.
    exact (idle_disjoint _ Hex k1 k2 d1 d2 Hne).
  - intros i j di dj Hne Hi Hj.
    exact (held_disjoint _ Hex i j di dj Hne (Hholds _ _ Hi) (Hholds _ _ Hj)).
  - intros i di k d Hi. rewrite Hidle.
    exact (held_not_idle _ Hex i di k d (Hholds _ _ Hi)).
  - intros k d. rewrite Hidle, Hnh. exact (idle_below _ Hex k d).
  - intros i d Hi. rewrite Hnh. exact (held_below _ Hex i d (Hholds _ _ Hi)).
Qed.

Lemma holds_insert_same (w w0 : World) (hs : gmap nat PorcupineEventHandler)
    (i : nat) (s s0 : PorcupineEventHandler) :
  detector s = detector s0 ->
  forall j d,
    holds {| world := w; handlers := <[i := s]> hs |} j d ->
    holds {| world := w0; handlers := <[i := s0]> hs |} j d.
Proof.
  intros Hd j d (x & Hx & Hxd). simpl in *.
  destruct (decide (i = j)) as [->|Hne].
  - rewrite lookup_insert_eq in Hx. injection Hx as <-.
    exists s0. simpl. rewrite lookup_insert_eq. split; [reflexivity | congruence].
  - rewrite lookup_insert_ne in Hx by exact Hne.
    exists x. simpl. rewrite lookup_insert_ne by exact Hne. auto.
Qed.

End EventsMore.

(** X9. [handle_event] ends the session for [AudioStop] only: [AudioStop]
    always returns [False], without touching the handler, and whenever
    another event returns, it returns [True]. *)
Theorem only_audio_stop_ends (env : Env) (fuel : nat) :
  (forall self w, exists w',
      handle_event env fuel AudioStop self w = (Return false, self, w'))
  /\ (forall e self w b self' w',
        handle_event env fuel e self w = (Return b, self', w') ->
        e <> AudioStop -> b = true).
Proof.
  split.
  - intros self w. unfold handle_event, bind, write_event, ret.
    destruct (detected self); eauto.
  - intros e self w b self' w' Hrun Hne.
    destruct e as [|[[|kw kws]|]|r wd ch|c| |ty];
      unfold handle_event, bind, write_event, ret in Hrun.
    + inversion Hrun; reflexivity.
    + inversion Hrun; reflexivity.
    + destruct (_load_keyword env kw self w) as [[[[]|e|] s1] w1];
        inversion Hrun; reflexivity.
    + inversion Hrun; reflexivity.
    + inversion Hrun; reflexivity.
    + destruct (match detector self with
                | Some _ => _
                | None => _
                end) as [[[[]|e|] s1] w1]; try discriminate.
      destruct (detector s1) as [d|]; [|discriminate].
      destruct (while_frames env fuel d _ _ w1) as [[[[]|e|] s2] w2];
        inversion Hrun; reflexivity.
    + contradiction.
    + inversion Hrun; reflexivity.
Qed.

(** X10. No event raises the [detected] flag: whatever events a handler
    whose flag is down has handled, and however the last one ended, the flag
    is still down, and an [AudioStop] then writes [NotDetected]. *)
Theorem detected_flag_stays_down (env : Env) (fuel : nat) (events : list Event) :
  forall self w o self' w',
    detected self = false ->
    handle_events env fuel events self w = (o, self', w') ->
    detected self' = false
    /\ handle_event env fuel AudioStop self' w'
       = (Return false, self', log_written (client_id self') NotDetected w').
Proof.
  assert (Hkeep : forall self w o self' w',
             detected self = false ->
             handle_events env fuel events self w = (o, self', w') ->
             detected self' = false).
  { induction events as [|e events IH]; intros self w o self' w' Hflag Hrun.
    - inversion Hrun; subst. exact Hflag.
    - simpl in Hrun. unfold bind in Hrun.
      destruct (handle_event env fuel e self w) as [[o1 s1] w1] eqn:He.
      pose proof (handle_event_detected env fuel e _ _ _ _ _ He Hflag) as Hflag1.
      destruct o1 as [[|]|err|].
      + exact (IH _ _ _ _ _ Hflag1 Hrun).
      + inversion Hrun; subst. exact Hflag1.
      + inversion Hrun; subst. exact Hflag1.
      + inversion Hrun; subst. exact Hflag1. }
  intros self w o self' w' Hflag Hrun.
  pose proof (Hkeep _ _ _ _ _ Hflag Hrun) as Hdown.
  split; [exact Hdown|]. exact (audio_stop_not_detected env fuel self' w' Hdown).
Qed.

Lemma detected_flag_stays_down_witness :
  detected Demo.h0 = false
  /\ forall o self' w',
       handle_events Demo.env 9
         [AudioStart 16000 2 1; Demo.chunk [Byte.x01; Byte.x00; Byte.x00; Byte.x00]]
         Demo.h0 Demo.w0 = (o, self', w') ->
       detected self' = false.
Proof.
  split; [reflexivity|].
  intros o self' w' Hrun.
  exact (proj1 (detected_flag_stays_down Demo.env 9 _ Demo.h0 Demo.w0 o self' w'
                  eq_refl Hrun)).
Defined.

(** X11. Every event a handler handles keeps every detector with one owner,
    however the event ends (return, exception, or a loop that does not
    come back): [handle_event] changes who holds which detector only the
    way [_load_keyword] does. *)
Theorem handle_event_keeps_single_owner (env : Env) (fuel : nat) (e : Event)
    (sys : System) (i : nat) (self : PorcupineEventHandler)
    (o : Outcome bool) (self' : PorcupineEventHandler) (w' : World) :
  exclusive sys ->
  handlers sys !! i = Some self ->
  handle_event env fuel e self (world sys) = (o, self', w') ->
  exclusive {| world := w'; handlers := <[i := self']> (handlers sys) |}.
Proof.
  intros Hex Hi Hrun.
  apply handle_event_footprint in Hrun
    as [(Hd & Hst & Hnh) | (kw & o1 & s1 & w1 & Hload & Hd & Hst & Hnh)].
  - apply (exclusive_ext sys); simpl.
    + intros k. unfold idle. rewrite Hst. reflexivity.
    + exact Hnh.
    + intros j d Hj.
      apply (holds_insert_same w' (world sys) _ i self' self Hd) in Hj.
      rewrite insert_id in Hj by exact Hi. destruct sys; exact Hj.
    + exact Hex.
  - pose proof (exclusive_step env (Acquire i kw) sys Hex) as Hex1.
    simpl in Hex1. rewrite Hi, Hload in Hex1.
    apply (exclusive_ext _ _ ) with (4 := Hex1); simpl.
    + intros k. unfold idle. rewrite Hst. reflexivity.
    + exact Hnh.
    + intros j d Hj.
      exact (holds_insert_same w' w1 _ i self' s1 Hd j d Hj).
Qed.

Lemma handle_event_keeps_single_owner_witness :
  exclusive
    {| world := set_next_handle 1 Demo.w0;
       handlers :=
         <[1 := bind_detector Demo.d0 "porcupine" (new_handler (Info []) Demo.args 8)]>
           (handlers Demo.sys0) |}.
Proof.
  apply (handle_event_keeps_single_owner Demo.env 9 (Detect (Some ["porcupine"]))
           Demo.sys0 1 (new_handler (Info []) Demo.args 8) (Return true)).
  - apply exclusive_initial; [reflexivity|].
    intros i self H. simpl in H.
    apply lookup_insert_Some in H as [[_ <-] | [_ H]]; [reflexivity|].
    apply lookup_singleton_Some in H as [_ <-]. reflexivity.
  - reflexivity.
  - vm_compute. reflexivity.
Defined.

(** ** Lemmas on the string primitives *)

Section Strings.
Variable sep : ascii.

Lemma str_split_nonempty (s : string) : str_split sep s <> [].
Proof.
  destruct s as [|c s]; simpl; [discriminate|].
  destruct (Ascii.eqb c sep); [discriminate|].
  destruct (str_split sep s); discriminate.
Qed.

Lemma str_split_none (s : string) :
  str_count sep s = 0 -> str_split sep s = [s].
Proof.
  induction s as [|c s IH]; simpl; [reflexivity|].
  destruct (Ascii.eqb c sep); [discriminate|].
  intros H. rewrite IH by exact H. reflexivity.
Qed.

Lemma str_split_app (x s : string) :
  str_split sep (x ++ String sep s)%string = str_split sep x ++ str_split sep s.
Proof.
  induction x as [|c x IH]; simpl.
  - rewrite Ascii.eqb_refl. reflexivity.
  - destruct (Ascii.eqb c sep); [rewrite IH; reflexivity|].
    rewrite IH. pose proof (str_split_nonempty x) as Hne.
    destruct (str_split sep x) as [|p ps]; [contradiction | reflexivity].
Qed.

Lemma str_rsplit1_none (s : string) :
  str_count sep s = 0 -> str_rsplit1 sep s = None.
Proof.
  induction s as [|c s IH]; simpl; [reflexivity|].
  destruct (Ascii.eqb c sep); [discriminate|].
  intros H. rewrite IH by exact H. reflexivity.
Qed.

Lemma str_rsplit1_app (x s : string) :
  str_count sep s = 0 ->
  str_rsplit1 sep (x ++ String sep s)%string = Some (x, s).
Proof.
  intros Hs. induction x as [|c x IH]; simpl.
  - rewrite (str_rsplit1_none s Hs), Ascii.eqb_refl. reflexivity.
  - rewrite IH. reflexivity.
Qed.

Lemma str_split_max_length (s : string) : forall m,
  length (str_split_max sep s m) = Nat.min m (str_count sep s) + 1.
Proof.
  induction s as [|c s IH]; intros m; simpl.
  - rewrite Nat.min_0_r. reflexivity.
  - destruct m as [|m]; [reflexivity|].
    destruct (Ascii.eqb c sep).
    + simpl. rewrite IH. lia.
    + specialize (IH (S m)). simpl in IH |- *.
      destruct (str_split_max sep s (S m)) as [|p ps]; simpl in *; lia.
Qed.

Lemma str_split_max_app (x s : string) (m : nat) :
  str_count sep x = 0 ->
  str_split_max sep (x ++ String sep s)%string (S m) = x :: str_split_max sep s m.
Proof.
  induction x as [|c x IH]; simpl.
  - rewrite Ascii.eqb_refl. reflexivity.
  - destruct (Ascii.eqb c sep); [discriminate|].
    intros H. simpl in IH. rewrite IH by exact H. reflexivity.
Qed.

Lemma str_split_max_zero (s : string) : str_split_max sep s 0 = [s].
Proof. destruct s; reflexivity. Qed.

End Strings.

Lemma last_piece_app (x s : string) :
  str_count "_"%char s = 0 ->
  last_piece (x ++ String "_"%char s)%string = s.
Proof.
  intros Hs. unfold last_piece.
  rewrite str_split_app, (str_split_none _ s Hs).
  apply last_last.
Qed.

Lemma last_piece_none (s : string) :
  str_count "_"%char s = 0 -> last_piece s = s /\ rsplit_head s = s.
Proof.
  intros Hs. unfold last_piece, rsplit_head.
  rewrite (str_split_none _ s Hs), (str_rsplit1_none _ s Hs). auto.
Qed.

Lemma rsplit_head_app (x s : string) :
  str_count "_"%char s = 0 ->
  rsplit_head (x ++ String "_"%char s)%string = x.
Proof.
  intros Hs. unfold rsplit_head. rewrite (str_rsplit1_app _ x s Hs). reflexivity.
Qed.

(** ** Lemmas on insertion-ordered dictionaries *)

Section Dict.
Context {V : Type}.

Lemma dict_get_set_eq (k : string) (v : V) (d : list (string * V)) :
  dict_get k (dict_set k v d) = Some v.
Proof.
  induction d as [|[k' v'] d IH]; simpl.
  - rewrite String.eqb_refl. reflexivity.
  - destruct (String.eqb k' k) eqn:E; simpl; rewrite E; [reflexivity | exact IH].
Qed.

Lemma dict_get_set_ne (k k0 : string) (v : V) (d : list (string * V)) :
  k0 <> k -> dict_get k0 (dict_set k v d) = dict_get k0 d.
Proof.
  intros Hne. induction d as [|[k' v'] d IH]; simpl.
  - destruct (String.eqb_spec k k0) as [->|_]; [contradiction | reflexivity].
  - destruct (String.eqb_spec k' k) as [->|_]; simpl.
    + destruct (String.eqb_spec k k0) as [->|_]; [contradiction | reflexivity].
    + rewrite IH. reflexivity.
Qed.

Lemma dict_get_elem (k : string) (v : V) (d : list (string * V)) :
  dict_get k d = Some v -> (k, v) ∈ d.
Proof.
  induction d as [|[k' v'] d IH]; simpl; [discriminate|].
  destruct (String.eqb_spec k' k) as [->|_].
  - intros E. injection E as ->. apply list_elem_of_here.
  - intros E. apply list_elem_of_further, IH, E.
Qed.

Lemma dict_set_elem (k k0 : string) (v v0 : V) (d : list (string * V)) :
  (k0, v0) ∈ dict_set k v d -> (k0 = k /\ v0 = v) \/ (k0, v0) ∈ d.
Proof.
  induction d as [|[k' v'] d IH]; simpl; intros Hin.
  - apply list_elem_of_singleton in Hin. injection Hin as -> ->. left. auto.
  - destruct (String.eqb_spec k' k) as [->|_].
    + apply elem_of_cons in Hin as [Hin | Hin].
      * injection Hin as -> ->. left. auto.
      * right. apply list_elem_of_further, Hin.
    + apply elem_of_cons in Hin as [Hin | Hin].
      * right. rewrite Hin. apply list_elem_of_here.
      * destruct (IH Hin) as [H | H]; [left; exact H|].
        right. apply list_elem_of_further, H.
Qed.

Lemma dict_set_keys (k : string) (v : V) (d : list (string * V)) :
  map fst (dict_set k v d)
  = match dict_get k d with
    | Some _ => map fst d
    | None => map fst d ++ [k]
    end.
Proof.
  induction d as [|[k' v'] d IH]; simpl; [reflexivity|].
  destruct (String.eqb_spec k' k) as [->|_]; simpl; [reflexivity|].
  rewrite IH. destruct (dict_get k d); reflexivity.
Qed.

Lemma dict_get_keys (k : string) (d : list (string * V)) :
  is_Some (dict_get k d) <-> k ∈ map fst d.
Proof.
  induction d as [|[k' v'] d IH]; simpl.
  - split; [intros [? H]; discriminate | intros H; inversion H].
  - destruct (String.eqb_spec k' k) as [->|Hne].
    + split; [intros _; apply list_elem_of_here | eauto].
    + rewrite IH. split; [apply list_elem_of_further|].
      intros H. apply elem_of_cons in H as [H | H]; [congruence | exact H].
Qed.

Lemma dict_set_nodup (k : string) (v : V) (d : list (string * V)) :
  NoDup (map fst d) -> NoDup (map fst (dict_set k v d)).
Proof.
  intros Hnd. rewrite dict_set_keys.
  destruct (dict_get k d) as [x|] eqn:E; [exact Hnd|].
  apply NoDup_app. split; [exact Hnd|]. split; [|apply NoDup_singleton].
  intros y Hy Hy'. apply list_elem_of_singleton in Hy'. subst y.
  apply dict_get_keys in Hy as [? Hy]. congruence.
Qed.

Lemma list_to_map_dict_get (k : string) (d : list (string * V)) :
  (list_to_map d : gmap string V) !! k = dict_get k d.
Proof.
  induction d as [|[k' v'] d IH]; simpl; [apply lookup_empty|].
  destruct (String.eqb_spec k' k) as [->|Hne].
  - apply lookup_insert_eq.
  - rewrite lookup_insert_ne by exact Hne. exact IH.
Qed.

End Dict.

(** ** Keyword discovery *)

Section Discovery.
Variable system : string.

Lemma sourced_mono (files files' : list Path.t) d :
  files ⊆ files' -> sourced system files d -> sourced system files' d.
Proof.
  intros Hsub H k kw Hin. destruct (H k kw Hin) as (p & Hp & Hf).
  exists p. split; [apply Hsub, Hp | exact Hf].
Qed.

Lemma add_resource_sourced (files : list Path.t) d (p : Path.t) :
  sourced system files d -> sourced system (files ++ [p]) (add_resource system d p).
Proof.
  intros H. unfold add_resource.
  destruct (String.eqb_spec (last_piece (Path.stem p)) system) as [Hsys|Hne]; simpl.
  - intros k kw Hin. apply dict_set_elem in Hin as [[-> ->] | Hin].
    + exists p. split; [apply elem_of_app; right; apply list_elem_of_here|].
      repeat split. left. auto.
    + destruct (H k kw Hin) as (q & Hq & Hf).
      exists q. split; [apply elem_of_app; left; exact Hq | exact Hf].
  - apply (sourced_mono files); [|exact H].
    intros q Hq. apply elem_of_app. left. exact Hq.
Qed.

Lemma add_custom_sourced (files : list Path.t) d (p : Path.t) :
  sourced system files d -> sourced system (files ++ [p]) (add_custom system d p).
Proof.
  intros H.
  assert (Hold : sourced system (files ++ [p]) d).
  { apply (sourced_mono files); [|exact H].
    intros q Hq. apply elem_of_app. left. exact Hq. }
  unfold add_custom.
  destruct (str_split_max "_"%char (Path.stem p) 3)
    as [|n [|l [|sy [|tail [|? ?]]]]] eqn:Hsplit; try exact Hold.
  destruct (String.eqb_spec sy system) as [->|Hne]; simpl; [|exact Hold].
  intros k kw Hin. apply dict_set_elem in Hin as [[-> ->] | Hin].
  - exists p. split; [apply elem_of_app; right; apply list_elem_of_here|].
    repeat split. right. exists tail. exact Hsplit.
  - exact (Hold k kw Hin).
Qed.

Lemma add_resource_nodup d (p : Path.t) :
  NoDup (map fst d) -> NoDup (map fst (add_resource system d p)).
Proof.
  intros H. unfold add_resource.
  destruct (negb _); [exact H | apply dict_set_nodup, H].
Qed.

Lemma add_custom_nodup d (p : Path.t) :
  NoDup (map fst d) -> NoDup (map fst (add_custom system d p)).
Proof.
  intros H. unfold add_custom.
  destruct (str_split_max "_"%char (Path.stem p) 3)
    as [|n [|l [|sy [|tail [|? ?]]]]]; try exact H.
  destruct (negb _); [exact H | apply dict_set_nodup, H].
Qed.

Lemma fold_resources (ps : list Path.t) : forall files d,
  sourced system files d -> NoDup (map fst d) ->
  sourced system (files ++ ps) (fold_left (add_resource system) ps d)
  /\ NoDup (map fst (fold_left (add_resource system) ps d)).
Proof.
  induction ps as [|p ps IH]; intros files d Hs Hnd; simpl.
  - rewrite app_nil_r. auto.
  - replace (files ++ p :: ps) with ((files ++ [p]) ++ ps)
      by (rewrite <- app_assoc; reflexivity).
    apply IH; [apply add_resource_sourced, Hs | apply add_resource_nodup, Hnd].
Qed.

Lemma fold_customs (ps : list Path.t) : forall files d,
  sourced system files d -> NoDup (map fst d) ->
  sourced system (files ++ ps) (fold_left (add_custom system) ps d)
  /\ NoDup (map fst (fold_left (add_custom system) ps d)).
Proof.
  induction ps as [|p ps IH]; intros files d Hs Hnd; simpl.
  - rewrite app_nil_r. auto.
  - replace (files ++ p :: ps) with ((files ++ [p]) ++ ps)
      by (rewrite <- app_assoc; reflexivity).
    apply IH; [apply add_custom_sourced, Hs | apply add_custom_nodup, Hnd].
Qed.

Lemma discover_sourced (resources : list Path.t) (custom_dirs : list (list Path.t)) :
  sourced system (resources ++ concat custom_dirs)
    (discover_keywords system resources custom_dirs)
  /\ NoDup (map fst (discover_keywords system resources custom_dirs)).
Proof.
  unfold discover_keywords.
  destruct (fold_resources resources [] []) as [Hs Hnd].
  - intros k kw Hin. inversion Hin.
  - apply NoDup_nil_2.
  - simpl in Hs. apply fold_customs; assumption.
Qed.

End Discovery.

(** X12. A shipped keyword file whose stem is [name_system] (the system part
    being what follows the last underscore) is registered under [name], with
    the directory two levels up as language, exactly when the system part is
    the running system; the name may itself contain underscores. A stem
    without any underscore is read as both the name and the system. *)
Theorem add_resource_named (system : string) (d : list (string * Keyword.t))
    (p : Path.t) :
  (forall n sy,
      Path.stem p = (n ++ String "_"%char sy)%string ->
      str_count "_"%char sy = 0 ->
      add_resource system d p
      = if String.eqb sy system
        then dict_set n (Keyword.mk (Path.parent_parent_name p) n (Path.str p)) d
        else d)
  /\ (str_count "_"%char (Path.stem p) = 0 ->
      add_resource system d p
      = if String.eqb (Path.stem p) system
        then dict_set (Path.stem p)
               (Keyword.mk (Path.parent_parent_name p) (Path.stem p) (Path.str p)) d
        else d).
Proof.
  split.
  - intros n sy Hstem Hsy. unfold add_resource.
    rewrite Hstem, (last_piece_app n sy Hsy), (rsplit_head_app n sy Hsy).
    destruct (String.eqb sy system); reflexivity.
  - intros Hnone. unfold add_resource.
    destruct (last_piece_none _ Hnone) as [-> ->].
    destruct (String.eqb (Path.stem p) system); reflexivity.
Qed.

Lemma add_resource_named_witness :
  add_resource "linux" [] (Path.mk "hey_google_linux" "en" "en/linux/hey_google_linux.ppn")
  = [("hey_google", Keyword.mk "en" "hey_google" "en/linux/hey_google_linux.ppn")]
  /\ add_resource "linux" [] (Path.mk "linux" "en" "en/linux/linux.ppn")
     = [("linux", Keyword.mk "en" "linux" "en/linux/linux.ppn")].
Proof.
  destruct (add_resource_named "linux" []
              (Path.mk "hey_google_linux" "en" "en/linux/hey_google_linux.ppn"))
    as [H1 _].
  destruct (add_resource_named "linux" [] (Path.mk "linux" "en" "en/linux/linux.ppn"))
    as [_ H2].
  split.
  - apply (H1 "hey_google" "linux"); reflexivity.
  - apply H2. reflexivity.
Defined.

(** X13. Every entry of the discovered keyword mapping is named by its key
    and comes from one of the listed files of the running system: a shipped
    file whose stem ends in [_system], or a custom file whose stem splits
    into name, language, system and a tail. No key occurs twice. *)
Theorem discovered_keywords_sourced (system : string) (resources : list Path.t)
    (custom_dirs : list (list Path.t)) :
  (forall k kw,
      dict_get k (discover_keywords system resources custom_dirs) = Some kw ->
      Keyword.name kw = k
      /\ exists p, p ∈ resources ++ concat custom_dirs /\ from_file system k kw p)
  /\ NoDup (map fst (discover_keywords system resources custom_dirs)).
Proof.
  destruct (discover_sourced system resources custom_dirs) as [Hs Hnd].
  split; [|exact Hnd].
  intros k kw Hget. apply dict_get_elem in Hget.
  destruct (Hs k kw Hget) as (p & Hp & Hf).
  split; [exact (proj1 (proj2 Hf))|]. exists p. auto.
Qed.

(** X14. A custom keyword file whose stem has fewer than three underscores
    is skipped: the keyword mapping is as before. *)
Theorem add_custom_malformed (system : string) (d : list (string * Keyword.t))
    (p : Path.t) :
  str_count "_"%char (Path.stem p) < 3 ->
  add_custom system d p = d.
Proof.
  intros Hlt. unfold add_custom.
  pose proof (str_split_max_length "_"%char (Path.stem p) 3) as Hlen.
  destruct (str_split_max "_"%char (Path.stem p) 3)
    as [|n [|l [|sy [|tail [|? ?]]]]]; try reflexivity.
  cbn [length] in Hlen. lia.
Qed.

Lemma add_custom_malformed_witness :
  add_custom "linux" [] (Path.mk "jarvis_en_linux" "" "custom/jarvis_en_linux.ppn") = [].
Proof.
  apply (add_custom_malformed "linux" []
           (Path.mk "jarvis_en_linux" "" "custom/jarvis_en_linux.ppn")).
  simpl. lia.
Defined.

(** X15. A custom keyword file [name_lang_system_tail] of the running system
    that is listed last is the entry of [name] in the discovered mapping,
    whatever shipped or custom files of that name came before it. *)
Theorem last_custom_wins (system : string) (resources : list Path.t)
    (dirs : list (list Path.t)) (files : list Path.t) (p : Path.t)
    (n l tail : string) :
  Path.stem p
  = (n ++ String "_"%char (l ++ String "_"%char (system ++ String "_"%char tail)))%string ->
  str_count "_"%char n = 0 ->
  str_count "_"%char l = 0 ->
  str_count "_"%char system = 0 ->
  dict_get n (discover_keywords system resources (dirs ++ [files ++ [p]]))
  = Some (Keyword.mk l n (Path.str p)).
Proof.
  intros Hstem Hn Hl Hsys. unfold discover_keywords.
  rewrite concat_app. simpl. rewrite app_nil_r, app_assoc, fold_left_app. simpl.
  unfold add_custom at 1. rewrite Hstem.
  rewrite (str_split_max_app _ n _ 2 Hn), (str_split_max_app _ l _ 1 Hl),
    (str_split_max_app _ system _ 0 Hsys), str_split_max_zero.
  rewrite String.eqb_refl. simpl. apply dict_get_set_eq.
Qed.

Lemma last_custom_wins_witness :
  dict_get "jarvis"
    (discover_keywords "linux"
       [Path.mk "jarvis_linux" "en" "en/linux/jarvis_linux.ppn"]
       ([] ++ [[] ++ [Path.mk "jarvis_de_linux_v2_2_0" "" "custom/jarvis_de_linux_v2_2_0.ppn"]]))
  = Some (Keyword.mk "de" "jarvis" "custom/jarvis_de_linux_v2_2_0.ppn").
Proof.
  apply (last_custom_wins "linux" [Path.mk "jarvis_linux" "en" "en/linux/jarvis_linux.ppn"]
           [] [] (Path.mk "jarvis_de_linux_v2_2_0" "" "custom/jarvis_de_linux_v2_2_0.ppn")
           "jarvis" "de" "v2_2_0"); reflexivity.
Defined.

(** X16. The models advertised in the [Info] event are the keys of the
    keyword mapping of the [State], each once: a name is advertised exactly
    when [State.keywords] has it, and each model carries the description
    [name (language)] and the language of that keyword. *)
Theorem advertised_models_are_keywords (system : string) (resources : list Path.t)
    (custom_dirs : list (list Path.t)) (libs : list (string * string)) :
  let d := discover_keywords system resources custom_dirs in
  map WakeModel.name (wake_models d) = map fst d
  /\ NoDup (map WakeModel.name (wake_models d))
  /\ (forall name,
        name ∈ map WakeModel.name (wake_models d)
        <-> is_Some (keywords (initial_state libs d) !! name))
  /\ (forall m,
        m ∈ wake_models d ->
        exists kw,
          keywords (initial_state libs d) !! WakeModel.name m = Some kw
          /\ WakeModel.description m
             = (WakeModel.name m ++ " (" ++ Keyword.language kw ++ ")")%string
          /\ WakeModel.languages m = [Keyword.language kw]).
Proof.
  intros d. destruct (discover_sourced system resources custom_dirs) as [Hs Hnd].
  fold d in Hs, Hnd.
  assert (Hname : forall k kw, (k, kw) ∈ d -> Keyword.name kw = k).
  { intros k kw Hin. destruct (Hs k kw Hin) as (p & _ & _ & Hk & _). exact Hk. }
  assert (Hmap : map WakeModel.name (wake_models d) = map fst d).
  { unfold wake_models. rewrite map_map. apply map_ext_in.
    intros [k kw] Hin. simpl. apply Hname, list_elem_of_In, Hin. }
  assert (Hget : forall k kw, (k, kw) ∈ d -> dict_get k d = Some kw).
  { clear - Hnd. induction d as [|[k' v'] d IH]; intros k kw Hin; [inversion Hin|].
    simpl in Hnd. apply NoDup_cons in Hnd as [Hk' Hnd]. simpl.
    apply elem_of_cons in Hin as [Hin | Hin].
    - injection Hin as -> ->. rewrite String.eqb_refl. reflexivity.
    - destruct (String.eqb_spec k' k) as [->|_]; [|exact (IH Hnd k kw Hin)].
      exfalso. apply Hk'. apply list_elem_of_fmap. exists (k, kw). auto. }
  split; [exact Hmap|]. split; [rewrite Hmap; exact Hnd|]. split.
  - intros name. rewrite Hmap. simpl. rewrite list_to_map_dict_get.
    symmetry. apply dict_get_keys.
  - intros m Hm. unfold wake_models in Hm.
    apply list_elem_of_fmap in Hm as ([k kw] & -> & Hin). simpl.
    exists kw. rewrite list_to_map_dict_get, (Hname k kw Hin).
    split; [exact (Hget k kw Hin) | auto].
Qed.

Lemma fold_add_lib_other (lang : string) (l2 : list Path.t) : forall d,
  (forall q, q ∈ l2 -> last_piece (Path.stem q) <> lang) ->
  dict_get lang (fold_left add_lib l2 d) = dict_get lang d.
Proof.
  induction l2 as [|q l2 IH]; intros d Hno; [reflexivity|]. simpl.
  rewrite IH by (intros r Hr; apply Hno, list_elem_of_further, Hr).
  unfold add_lib. apply dict_get_set_ne.
  intros Heq. exact (Hno q (list_elem_of_here _ _) (eq_sym Heq)).
Qed.

(** X17. The library of a language is the last listed library file whose
    stem ends in [_language], wherever it stands in the listing: after
    start-up [State.pv_lib_paths] maps the text after the last underscore of
    a stem to the path of the last file with that text, and has no entry for
    a text no listed file ends in. *)
Theorem last_lib_wins (kws : list (string * Keyword.t)) :
  (forall l1 p l2 lang,
      last_piece (Path.stem p) = lang ->
      (forall q, q ∈ l2 -> last_piece (Path.stem q) <> lang) ->
      pv_lib_paths (initial_state (discover_libs (l1 ++ p :: l2)) kws) !! lang
      = Some (Path.str p))
  /\ (forall libs lang,
        (forall q, q ∈ libs -> last_piece (Path.stem q) <> lang) ->
        pv_lib_paths (initial_state (discover_libs libs) kws) !! lang = None)
  /\ (forall x lang,
        str_count "_"%char lang = 0 ->
        last_piece (x ++ String "_"%char lang)%string = lang).
Proof.
  split; [|split].
  - intros l1 p l2 lang Hp Hno. simpl. rewrite list_to_map_dict_get.
    unfold discover_libs. rewrite fold_left_app. simpl.
    rewrite (fold_add_lib_other lang l2 _ Hno).
    unfold add_lib. rewrite Hp. apply dict_get_set_eq.
  - intros libs lang Hno. simpl. rewrite list_to_map_dict_get.
    unfold discover_libs. rewrite (fold_add_lib_other lang libs [] Hno).
    reflexivity.
  - intros x lang Hlang. exact (last_piece_app x lang Hlang).
Qed.

Lemma last_lib_wins_witness :
  pv_lib_paths
    (initial_state
       (discover_libs
          ([Path.mk "old_params_de" "" "lib/common/old_params_de.pv"]
           ++ Path.mk "porcupine_params_de" "" "lib/common/porcupine_params_de.pv"
              :: [Path.mk "porcupine_params_en" "" "lib/common/porcupine_params_en.pv"]))
       []) !! "de"
  = Some "lib/common/porcupine_params_de.pv".
Proof.
  destruct (last_lib_wins []) as (Hlast & _ & _).
  apply (Hlast [Path.mk "old_params_de" "" "lib/common/old_params_de.pv"]
           (Path.mk "porcupine_params_de" "" "lib/common/porcupine_params_de.pv")
           [Path.mk "porcupine_params_en" "" "lib/common/porcupine_params_en.pv"]
           "de").
  - reflexivity.
  - intros q Hq. apply list_elem_of_singleton in Hq as ->. discriminate.
Defined.

(** ** The system tag *)

Lemma prefix_app (sub s : string) :
  String.prefix sub s = true <-> exists post, s = (sub ++ post)%string.
Proof.
  revert s. induction sub as [|a sub IH]; intros s.
  - split; [intros _; exists s; reflexivity | intros _; destruct s; reflexivity].
  - destruct s as [|b s]; simpl;
      [split; [discriminate | intros [post H]; discriminate]|].
    destruct (ascii_dec a b) as [->|Hne].
    + rewrite IH. split; intros [post H]; exists post.
      * rewrite H. reflexivity.
      * change (String b s = String b (sub ++ post)%string) in H. congruence.
    + split; [discriminate|]. intros [post H].
      change (String b s = String a (sub ++ post)%string) in H. congruence.
Qed.

Lemma str_contains_app (sub s : string) :
  str_contains sub s = true
  <-> exists pre post, s = (pre ++ sub ++ post)%string.
Proof.
  induction s as [|c s IH]; cbn [str_contains].
  - rewrite orb_false_r, prefix_app. split.
    + intros [post H]. exists EmptyString, post. exact H.
    + intros (pre & post & H). destruct pre; [exists post; exact H | discriminate].
  - rewrite orb_true_iff, prefix_app, IH. split.
    + intros [[post H] | (pre & post & H)].
      * exists EmptyString, post. exact H.
      * exists (String c pre), post. rewrite H. reflexivity.
    + intros (pre & post & H). destruct pre as [|c' pre].
      * left. exists post. exact H.
      * right. exists pre, post.
        change (String c s = String c' (pre ++ sub ++ post)%string) in H.
        congruence.
Qed.

(** X18. A non-empty [--system] is used as given. Without one (absent or
    empty), the system is ["raspberry-pi"] exactly when the lower-cased
    machine name contains ["arm"] or ["aarch"], and ["linux"] otherwise. *)
Theorem detect_system_spec (machine : string) :
  (forall c s, detect_system (Some (String c s)) machine = String c s)
  /\ detect_system None machine = detect_system (Some "") machine
  /\ (detect_system None machine = "raspberry-pi"
      <-> exists pre post,
            machine = (pre ++ "arm" ++ post)%string
            \/ machine = (pre ++ "aarch" ++ post)%string)
  /\ (detect_system None machine = "raspberry-pi"
      \/ detect_system None machine = "linux").
Proof.
  split; [reflexivity|]. split; [reflexivity|]. simpl.
  destruct (str_contains "arm" machine) eqn:Harm;
    [|destruct (str_contains "aarch" machine) eqn:Haarch]; simpl.
  - split; [|left; reflexivity]. split; [intros _ | reflexivity].
    apply str_contains_app in Harm as (pre & post & H). exists pre, post. left. exact H.
  - split; [|left; reflexivity]. split; [intros _ | reflexivity].
    apply str_contains_app in Haarch as (pre & post & H).
    exists pre, post. right. exact H.
  - split; [|right; reflexivity]. split; [discriminate|].
    intros (pre & post & [H | H]).
    + assert (Hc : str_contains "arm" machine = true)
        by (apply str_contains_app; eauto). congruence.
    + assert (Hc : str_contains "aarch" machine = true)
        by (apply str_contains_app; eauto). congruence.
Qed.

(** ** The tee reader *)

(** X19. [TeeStreamReader] is transparent and complete: a run of calls
    returns what the wrapped reader returns to the same calls and leaves the
    reader in the same state, and the debug buffer grows by exactly the data
    of the calls that returned, in order; a call that raises adds nothing. *)
Theorem tee_reader_records_all {R : Type}
    (reader : R -> Tee.Call -> option bytes * R) (cs : list Tee.Call) :
  forall self : Tee.t R,
    (fst (Tee.calls reader cs self), Tee._reader (snd (Tee.calls reader cs self)))
    = Tee.direct reader cs (Tee._reader self)
    /\ Tee.get_debug_buffer (snd (Tee.calls reader cs self))
       = Tee.get_debug_buffer self
         ++ concat (omap id (fst (Tee.calls reader cs self))).
Proof.
  induction cs as [|c cs IH]; intros self; simpl.
  - rewrite app_nil_r. auto.
  - unfold Tee.call.
    destruct (reader (Tee._reader self) c) as [[data|] r'] eqn:Hr.
    + specialize (IH (Tee.mk r' (Tee._buffer self ++ data))).
      destruct (Tee.calls reader cs _) as [ress self''].
      destruct IH as [IH1 IH2]. simpl in *.
      destruct (Tee.direct reader cs r') as [ress' r''].
      injection IH1 as -> ->. split; [reflexivity|].
      unfold Tee.get_debug_buffer in *. simpl in *.
      rewrite IH2, <- app_assoc. reflexivity.
    + specialize (IH (Tee.mk r' (Tee._buffer self))).
      destruct (Tee.calls reader cs _) as [ress self''].
      destruct IH as [IH1 IH2]. simpl in *.
      destruct (Tee.direct reader cs r') as [ress' r''].
      injection IH1 as -> ->. split; [reflexivity|]. exact IH2.
Qed.
